(** * Speculative aggregator extension of the Aptos VM

    A shallow embedding of [aptos-move/aptos-aggregator/src/aggregator_extension.rs]:
    the per-transaction aggregator state machine ([Aggregator::try_add],
    [try_sub], the two reads) and the registry [AggregatorData].

    [u128]/[u64] values are [Z]; every operation that the Rust code performs
    on them is either bounded by [max_value] or written out with its overflow
    behaviour.  Error messages are dropped: a [PartialVMError] is modelled by
    its kind. *)

From Stdlib Require Import ZArith Lia.
From stdpp Require Import base gmap strings list.

Open Scope Z_scope.

(** ** Rust [Result] *)

Inductive result (T E : Type) : Type :=
| Ok (v : T)
| Err (e : E).
Arguments Ok {T E} v.
Arguments Err {T E} e.

Definition map_ok {T U E} (f : T -> U) (r : result T E) : result U E :=
  match r with Ok v => Ok (f v) | Err e => Err e end.

Definition map_err {T E F} (f : E -> F) (r : result T E) : result T F :=
  match r with Ok v => Ok v | Err e => Err (f e) end.

Definition is_err {T E} (r : result T E) : bool :=
  match r with Ok _ => false | Err _ => true end.

Definition U128_MAX : Z := 2 ^ 128 - 1.
Definition U64_MAX : Z := 2 ^ 64 - 1.
Definition is_u128 (x : Z) : Prop := 0 <= x <= U128_MAX.

(** ** bounded_math (not part of the analysed sources) *)

(** Modelled from the spec: [SignedU128] of [bounded_math.rs], the sum type
    {Positive(u128), Negative(u128)} with negation ([minus]). *)
Inductive SignedU128 : Type :=
| Positive (v : Z)
| Negative (v : Z).

Global Instance SignedU128_eq_dec : EqDecision SignedU128.
Proof. solve_decision. Defined.

Definition minus (d : SignedU128) : SignedU128 :=
  match d with Positive v => Negative v | Negative v => Positive v end.

(** The magnitude of a [SignedU128], a [u128]. *)
Definition magnitude (d : SignedU128) : Z :=
  match d with Positive v | Negative v => v end.

(** The integer a [SignedU128] denotes. *)
Definition signed_value (d : SignedU128) : Z :=
  match d with Positive v => v | Negative v => - v end.

Inductive BoundedMathError : Type := Overflow | Underflow.

Definition BoundedMathResult (T : Type) : Type := result T BoundedMathError.

(** Modelled from the spec: [BoundedMath] of [bounded_math.rs], pure checked
    arithmetic on [u128] bounded by [max_value] (section 4.1). *)
Record BoundedMath : Type := BoundedMath_new { bm_max_value : Z }.

(** Modelled from the spec: [unsigned_add(a, b)] is [Ok(a+b)], or
    [Err(Overflow)] when [a + b > max_value]. *)
Definition unsigned_add (math : BoundedMath) (a b : Z) : BoundedMathResult Z :=
  if a + b <=? bm_max_value math then Ok (a + b) else Err Overflow.

(** Modelled from the spec: [unsigned_subtract(a, b)] is [Ok(a-b)], or
    [Err(Underflow)] when [b > a]. *)
Definition unsigned_subtract (math : BoundedMath) (a b : Z) : BoundedMathResult Z :=
  if a <? b then Err Underflow else Ok (a - b).

(** Modelled from the spec: [unsigned_add_delta(a, d)] is [a + d] constrained
    to [[0, max_value]]: below zero it underflows, above [max_value] it
    overflows. *)
Definition unsigned_add_delta (math : BoundedMath) (a : Z) (d : SignedU128)
    : BoundedMathResult Z :=
  let r := a + signed_value d in
  if r <? 0 then Err Underflow
  else if bm_max_value math <? r then Err Overflow
  else Ok r.

(** Modelled from the spec: [signed_add(d1, d2)], a sign-aware sum whose
    magnitude is bounded by [max_value] (else it overflows).  A mixed-sign
    sum of equal magnitudes is [Positive 0]. *)
Definition signed_add (math : BoundedMath) (d1 d2 : SignedU128)
    : BoundedMathResult SignedU128 :=
  let r := match d1, d2 with
           | Positive l, Positive r => Positive (l + r)
           | Negative l, Negative r => Negative (l + r)
           | Positive l, Negative r => if r <=? l then Positive (l - r) else Negative (r - l)
           | Negative l, Positive r => if l <=? r then Positive (r - l) else Negative (l - r)
           end in
  match r with
  | Positive v | Negative v => if v <=? bm_max_value math then Ok r else Err Overflow
  end.

(** Modelled from the spec: [ok_overflow] turns an overflow into [Ok(None)]
    ("if this itself overflows max_value, ignore"), keeps a value as
    [Ok(Some v)] and passes an underflow through. *)
Definition ok_overflow {T} (r : BoundedMathResult T) : BoundedMathResult (option T) :=
  match r with
  | Ok v => Ok (Some v)
  | Err Overflow => Ok None
  | Err Underflow => Err Underflow
  end.

(** ** Errors *)

(** Modelled from the spec: the kinds of [PartialVMError] the extension
    raises (section 4.3.5 and 7). *)
Inductive DeltaApplicationFailureReason : Type :=
| DeltaOverflow | DeltaUnderflow | ExpectedOverflow | ExpectedUnderflow.

Inductive PartialVMError : Type :=
| CodeInvariantError
| ExtensionError
| SpeculativeInvalidation (reason : DeltaApplicationFailureReason)
| MathError (e : BoundedMathError).

Definition PartialVMResult (T : Type) : Type := result T PartialVMError.

(** Modelled from the spec: [expect_ok] turns any arithmetic failure that
    must not happen into a code invariant error. *)
Definition expect_ok {T E} (r : result T E) : PartialVMResult T :=
  map_err (fun _ => CodeInvariantError) r.

(** ** delta_math: [DeltaHistory] (not part of the analysed sources) *)

(** Modelled from the spec: [DeltaHistory] of [delta_math.rs], four scalars
    (section 3 and 4.2). *)
Record DeltaHistory : Type := mk_DeltaHistory {
  max_achieved_positive_delta : Z;
  min_achieved_negative_delta : Z;
  min_overflow_positive_delta : option Z;
  max_underflow_negative_delta : option Z
}.

Global Instance DeltaHistory_eq_dec : EqDecision DeltaHistory.
Proof. solve_decision. Defined.

Definition DeltaHistory_new : DeltaHistory := mk_DeltaHistory 0 0 None None.

Definition is_empty (h : DeltaHistory) : bool :=
  bool_decide (h = DeltaHistory_new).

(** Modelled from the spec: [record_success] widens the achieved extrema. *)
Definition record_success (h : DeltaHistory) (new_delta : SignedU128) : DeltaHistory :=
  match new_delta with
  | Positive v =>
      mk_DeltaHistory (Z.max (max_achieved_positive_delta h) v)
        (min_achieved_negative_delta h) (min_overflow_positive_delta h)
        (max_underflow_negative_delta h)
  | Negative v =>
      mk_DeltaHistory (max_achieved_positive_delta h)
        (Z.max (min_achieved_negative_delta h) v) (min_overflow_positive_delta h)
        (max_underflow_negative_delta h)
  end.

(** Modelled from the spec: [record_overflow] keeps the smallest overflowing
    delta. *)
Definition record_overflow (h : DeltaHistory) (overflow_delta : Z) : DeltaHistory :=
  mk_DeltaHistory (max_achieved_positive_delta h) (min_achieved_negative_delta h)
    (Some (match min_overflow_positive_delta h with
           | Some o => Z.min o overflow_delta
           | None => overflow_delta
           end))
    (max_underflow_negative_delta h).

(** Modelled from the spec: [record_underflow] keeps the largest underflowing
    delta. *)
Definition record_underflow (h : DeltaHistory) (underflow_delta : Z) : DeltaHistory :=
  mk_DeltaHistory (max_achieved_positive_delta h) (min_achieved_negative_delta h)
    (min_overflow_positive_delta h)
    (Some (match max_underflow_negative_delta h with
           | Some u => Z.max u underflow_delta
           | None => underflow_delta
           end)).

(** Modelled from the spec: [validate_against_base_value(b, max_value)]
    accepts [b] iff the four conditions of section 4.2 hold. *)
Definition validate_against_base_value (h : DeltaHistory) (base max_value : Z)
    : result unit DeltaApplicationFailureReason :=
  if max_value <? base + max_achieved_positive_delta h then Err DeltaOverflow
  else if base <? min_achieved_negative_delta h then Err DeltaUnderflow
  else if match min_overflow_positive_delta h with
          | Some o => base + o <=? max_value
          | None => false
          end then Err ExpectedOverflow
  else if match max_underflow_negative_delta h with
          | Some u => u <=? base
          | None => false
          end then Err ExpectedUnderflow
  else Ok tt.

(** ** types: identifiers *)

(** A [StateKey] is an opaque byte string; its content never matters here. *)
Definition StateKey : Type := string.

Record AggregatorID : Type := AggregatorID_new { aggregator_id_value : Z }.

Global Instance AggregatorID_eq_dec : EqDecision AggregatorID.
Proof. solve_decision. Defined.

Global Instance AggregatorID_countable : Countable AggregatorID.
Proof.
  refine (inj_countable' aggregator_id_value AggregatorID_new _).
  by intros [].
Defined.

Inductive AggregatorVersionedID : Type :=
| V1 (state_key : StateKey)
| V2 (id : AggregatorID).

Global Instance AggregatorVersionedID_eq_dec : EqDecision AggregatorVersionedID.
Proof. solve_decision. Defined.

Global Instance AggregatorVersionedID_countable : Countable AggregatorVersionedID.
Proof.
  refine (inj_countable'
            (fun v => match v with V1 k => inl k | V2 i => inr i end)
            (fun s => match s with inl k => V1 k | inr i => V2 i end) _).
  by intros [].
Defined.

(** ** resolver *)

Inductive AggregatorReadMode : Type := LastCommitted | Aggregated.

(** The [AggregatorResolver] trait object; its errors are [anyhow::Error]s,
    kept as their message. *)
Record AggregatorResolver : Type := {
  get_aggregator_v1_value : StateKey -> AggregatorReadMode -> result (option Z) string;
  get_aggregator_v2_value : AggregatorID -> AggregatorReadMode -> result Z string
}.

(** Every call to the resolver is logged, so that "the resolver is not
    consulted" is the statement that the log stays empty. *)
Definition ResolverQuery : Type := (AggregatorVersionedID * AggregatorReadMode)%type.

(** ** aggregator state *)

Inductive SpeculativeStartValue : Type :=
| Unset
| LastCommittedValue (v : Z)
| AggregatedValue (v : Z).

Definition get_any_value (s : SpeculativeStartValue) : PartialVMResult Z :=
  match s with
  | Unset => Err CodeInvariantError
  | LastCommittedValue v => Ok v
  | AggregatedValue v => Ok v
  end.

Definition get_value_for_read (s : SpeculativeStartValue) : PartialVMResult Z :=
  match s with
  | Unset => Err CodeInvariantError
  | LastCommittedValue _ => Err CodeInvariantError
  | AggregatedValue v => Ok v
  end.

Inductive AggregatorState : Type :=
| Data (value : Z)
| Delta (speculative_start_value : SpeculativeStartValue) (delta : SignedU128)
        (history : DeltaHistory).

Record Aggregator : Type := mk_Aggregator {
  id : AggregatorVersionedID;
  max_value : Z;
  state : AggregatorState
}.

Definition set_state (a : Aggregator) (s : AggregatorState) : Aggregator :=
  mk_Aggregator (id a) (max_value a) s.

(** ** the [&mut self] methods: a state, error and resolver-log monad *)

Definition M (A : Type) : Type :=
  Aggregator -> PartialVMResult A * Aggregator * list ResolverQuery.

Definition ret {A} (x : A) : M A := fun a => (Ok x, a, []).

Definition throw {A} (e : PartialVMError) : M A := fun a => (Err e, a, []).

(** [?]: an error returns early and keeps the mutations made so far. *)
Definition bind {A B} (m : M A) (f : A -> M B) : M B := fun a =>
  match m a with
  | (Ok x, a1, l1) => let '(r, a2, l2) := f x a1 in (r, a2, l1 ++ l2)
  | (Err e, a1, l1) => (Err e, a1, l1)
  end.

Notation "x <- m ;; k" := (bind m (fun x => k))
  (at level 100, m at next level, right associativity).

Definition get : M Aggregator := fun a => (Ok a, a, []).

Definition put (a' : Aggregator) : M unit := fun _ => (Ok tt, a', []).

Definition lift {A} (r : PartialVMResult A) : M A := fun a => (r, a, []).

(** The [match &self.id] that picks the resolver method; V2 reads never see
    a deleted aggregator ([.map(Some)]). *)
Definition resolver_read (resolver : AggregatorResolver) (vid : AggregatorVersionedID)
    (mode : AggregatorReadMode) : result (option Z) string :=
  match vid with
  | V1 state_key => get_aggregator_v1_value resolver state_key mode
  | V2 i => map_ok Some (get_aggregator_v2_value resolver i mode)
  end.

Definition read_from_storage (resolver : AggregatorResolver) (mode : AggregatorReadMode)
    : M (result (option Z) string) := fun a =>
  (Ok (resolver_read resolver (id a) mode), a, [(id a, mode)]).

(** [.map_err(extension_error)?.ok_or_else(extension_error)?] *)
Definition value_or_extension_error (r : result (option Z) string) : PartialVMResult Z :=
  match r with
  | Err _ => Err ExtensionError
  | Ok None => Err ExtensionError
  | Ok (Some v) => Ok v
  end.

Definition read_last_committed_aggregator_value (resolver : AggregatorResolver) : M unit :=
  a <- get ;;
  match state a with
  | Delta Unset delta history =>
      if bool_decide (delta <> Positive 0) || negb (is_empty history)
      then throw CodeInvariantError
      else
        maybe_value_from_storage <- read_from_storage resolver LastCommitted ;;
        value_from_storage <- lift (value_or_extension_error maybe_value_from_storage) ;;
        put (set_state a (Delta (LastCommittedValue value_from_storage) delta history))
  | _ => ret tt
  end.

Definition try_add (resolver : AggregatorResolver) (input : Z) : M bool :=
  a <- get ;;
  if max_value a <? input then ret false else
  let math := BoundedMath_new (max_value a) in
  _ <- read_last_committed_aggregator_value resolver ;;
  a <- get ;;
  match state a with
  | Data value =>
      match unsigned_add math value input with
      | Ok new_value => _ <- put (set_state a (Data new_value)) ;; ret true
      | Err _ => ret false
      end
  | Delta speculative_start_value delta history =>
      start <- lift (get_any_value speculative_start_value) ;;
      cur_value <- lift (expect_ok (unsigned_add_delta math start delta)) ;;
      if is_err (unsigned_add math cur_value input) then
        overflow_delta <- lift (expect_ok (ok_overflow (unsigned_add_delta math input delta))) ;;
        let history' := match overflow_delta with
                        | Some o => record_overflow history o
                        | None => history
                        end in
        _ <- put (set_state a (Delta speculative_start_value delta history')) ;;
        ret false
      else
        new_delta <- lift (expect_ok (signed_add math delta (Positive input))) ;;
        _ <- put (set_state a (Delta speculative_start_value new_delta
                                 (record_success history new_delta))) ;;
        ret true
  end.

Definition try_sub (resolver : AggregatorResolver) (input : Z) : M bool :=
  a <- get ;;
  if max_value a <? input then ret false else
  let math := BoundedMath_new (max_value a) in
  _ <- read_last_committed_aggregator_value resolver ;;
  a <- get ;;
  match state a with
  | Data value =>
      match unsigned_subtract math value input with
      | Ok new_value => _ <- put (set_state a (Data new_value)) ;; ret true
      | Err _ => ret false
      end
  | Delta speculative_start_value delta history =>
      start <- lift (get_any_value speculative_start_value) ;;
      cur_value <- lift (expect_ok (unsigned_add_delta math start delta)) ;;
      if cur_value <? input then
        underflow_delta <- lift (expect_ok (ok_overflow
                                   (unsigned_add_delta math input (minus delta)))) ;;
        let history' := match underflow_delta with
                        | Some u => record_underflow history u
                        | None => history
                        end in
        _ <- put (set_state a (Delta speculative_start_value delta history')) ;;
        ret false
      else
        new_delta <- lift (expect_ok (signed_add math delta (Negative input))) ;;
        _ <- put (set_state a (Delta speculative_start_value new_delta
                                 (record_success history new_delta))) ;;
        ret true
  end.

Definition read_most_recent_aggregator_value (resolver : AggregatorResolver) : M Z :=
  a <- get ;;
  match state a with
  | Data value => ret value
  | Delta speculative_start_value delta history =>
      let math := BoundedMath_new (max_value a) in
      match speculative_start_value with
      | AggregatedValue start_value =>
          lift (map_err MathError (unsigned_add_delta math start_value delta))
      | _ =>
          maybe_value_from_storage <- read_from_storage resolver Aggregated ;;
          value_from_storage <- lift (value_or_extension_error maybe_value_from_storage) ;;
          _ <- lift (map_err SpeculativeInvalidation
                       (validate_against_base_value history value_from_storage (max_value a))) ;;
          result <- lift (expect_ok (unsigned_add_delta math value_from_storage delta)) ;;
          _ <- put (set_state a (Delta (AggregatedValue value_from_storage) delta history)) ;;
          ret result
      end
  end.

(** ** snapshots *)

Inductive SnapshotValue : Type :=
| Integer (v : Z)
| String (bytes : list Byte.byte).

Inductive DerivedFormula : Type :=
| Identity
| Concat (prefix suffix : list Byte.byte).

Inductive AggregatorSnapshotState : Type :=
| SnapshotData (value : SnapshotValue)
| SnapshotDelta (base_aggregator : AggregatorID) (delta : SignedU128)
                (formula : DerivedFormula)
| SnapshotReference (speculative_value : SnapshotValue).

Record AggregatorSnapshot : Type := mk_AggregatorSnapshot {
  snapshot_id : AggregatorID;
  snapshot_state : AggregatorSnapshotState
}.

(** ** [AggregatorData] *)

Record AggregatorData : Type := mk_AggregatorData {
  new_aggregators : gset AggregatorVersionedID;
  destroyed_aggregators : gset StateKey;
  aggregators : gmap AggregatorVersionedID Aggregator;
  aggregator_snapshots : gmap AggregatorID AggregatorSnapshot;
  id_counter : Z
}.

Definition AggregatorData_new (id_counter : Z) : AggregatorData :=
  mk_AggregatorData ∅ ∅ ∅ ∅ id_counter.

Definition set_aggregators (d : AggregatorData) (m : gmap AggregatorVersionedID Aggregator)
    : AggregatorData :=
  mk_AggregatorData (new_aggregators d) (destroyed_aggregators d) m
    (aggregator_snapshots d) (id_counter d).

(** [entry(id).or_insert(..)]: the mutable handle is returned as the
    aggregator stored under [id] in the updated registry. *)
Definition get_aggregator (d : AggregatorData) (id : AggregatorVersionedID) (max_value : Z)
    : PartialVMResult Aggregator * AggregatorData :=
  match aggregators d !! id with
  | Some aggregator => (Ok aggregator, d)
  | None =>
      let aggregator := mk_Aggregator id max_value
                          (Delta Unset (Positive 0) DeltaHistory_new) in
      (Ok aggregator, set_aggregators d (<[id := aggregator]> (aggregators d)))
  end.

(** [self.aggregators.len() as u128]. *)
Definition num_aggregators (d : AggregatorData) : Z :=
  Z.of_nat (size (aggregators d)).

Definition create_new_aggregator (d : AggregatorData) (id : AggregatorVersionedID)
    (max_value : Z) : AggregatorData :=
  let aggregator := mk_Aggregator id max_value (Data 0) in
  mk_AggregatorData ({[id]} ∪ new_aggregators d) (destroyed_aggregators d)
    (<[id := aggregator]> (aggregators d)) (aggregator_snapshots d) (id_counter d).

(** [assert_matches!] panics on a V2 id: [None] is the panic. *)
Definition remove_aggregator_v1 (d : AggregatorData) (id : AggregatorVersionedID)
    : option AggregatorData :=
  match id with
  | V2 _ => None
  | V1 state_key =>
      let aggregators' := delete id (aggregators d) in
      if bool_decide (id ∈ new_aggregators d) then
        Some (mk_AggregatorData (new_aggregators d ∖ {[id]}) (destroyed_aggregators d)
                aggregators' (aggregator_snapshots d) (id_counter d))
      else
        Some (mk_AggregatorData (new_aggregators d) ({[state_key]} ∪ destroyed_aggregators d)
                aggregators' (aggregator_snapshots d) (id_counter d))
  end.

(** [self.id_counter += 1] on a [u64]: the workspace builds with overflow
    checks, so the increment panics at [u64::MAX] ([None]). *)
Definition generate_id (d : AggregatorData) : option (AggregatorID * AggregatorData) :=
  let c := id_counter d + 1 in
  if U64_MAX <? c then None
  else Some (AggregatorID_new c,
             mk_AggregatorData (new_aggregators d) (destroyed_aggregators d)
               (aggregators d) (aggregator_snapshots d) c).

Definition snapshot (d : AggregatorData) (id : AggregatorID)
    : option (PartialVMResult AggregatorID * AggregatorData) :=
  match generate_id d with
  | None => None
  | Some (snapshot_id, d1) =>
      match aggregators d1 !! V2 id with
      | None => Some (Err CodeInvariantError, d1)
      | Some aggregator =>
          let snapshot_state :=
            match state aggregator with
            | Data value => SnapshotData (Integer value)
            | Delta _ delta _ => SnapshotDelta id delta Identity
            end in
          Some (Ok snapshot_id,
                mk_AggregatorData (new_aggregators d1) (destroyed_aggregators d1)
                  (aggregators d1)
                  (<[snapshot_id := mk_AggregatorSnapshot snapshot_id snapshot_state]>
                     (aggregator_snapshots d1))
                  (id_counter d1))
      end
  end.

(** [n] successive calls of [generate_id]. *)
Fixpoint generate_ids (n : nat) (d : AggregatorData)
    : option (list AggregatorID * AggregatorData) :=
  match n with
  | O => Some ([], d)
  | S n' =>
      match generate_id d with
      | None => None
      | Some (i, d1) =>
          match generate_ids n' d1 with
          | None => None
          | Some (is, d2) => Some (i :: is, d2)
          end
      end
  end.

(** ** Sample resolvers and aggregators for concrete runs *)

(** A resolver that knows the committed value [b] of every aggregator. *)
Definition const_resolver (b : Z) : AggregatorResolver := {|
  get_aggregator_v1_value := fun _ _ => Ok (Some b);
  get_aggregator_v2_value := fun _ _ => Ok b
|}.

(** A resolver in which no aggregator exists (the test [FakeAggregatorView]
    with nothing set). *)
Definition empty_resolver : AggregatorResolver := {|
  get_aggregator_v1_value := fun _ _ => Ok None;
  get_aggregator_v2_value := fun _ _ => Err "not found"%string
|}.

(** The aggregator [get_aggregator] creates for an id it has not seen. *)
Definition fresh_aggregator (vid : AggregatorVersionedID) (max_value : Z) : Aggregator :=
  mk_Aggregator vid max_value (Delta Unset (Positive 0) DeltaHistory_new).

(** ** Aggregators reachable through the public operations *)

(** The aggregator left behind by a [&mut self] call, whatever it returned. *)
Definition after {A} (m : M A) (a : Aggregator) : Aggregator :=
  let '(_, a', _) := m a in a'.

(** Every value [r] reports for an existing aggregator lies in [[lo, hi]]. *)
Definition resolver_values_in (lo hi : Z) (r : AggregatorResolver) : Prop :=
  forall vid mode v, resolver_read r vid mode = Ok (Some v) -> lo <= v <= hi.

(** Aggregators built by [create_new_aggregator] ([Data{0}]) or by
    [get_aggregator] on an unseen id ([Delta{Unset, 0, empty}]), then driven
    by any sequence of the four operations with [u128] inputs and resolvers
    accepted by [admissible] (given the aggregator's [max_value]). *)
Inductive reachable (admissible : Z -> AggregatorResolver -> Prop) : Aggregator -> Prop :=
| reach_created vid m :
    is_u128 m -> reachable admissible (mk_Aggregator vid m (Data 0))
| reach_fetched vid m :
    is_u128 m -> reachable admissible (fresh_aggregator vid m)
| reach_try_add a r input :
    reachable admissible a -> admissible (max_value a) r -> is_u128 input ->
    reachable admissible (after (try_add r input) a)
| reach_try_sub a r input :
    reachable admissible a -> admissible (max_value a) r -> is_u128 input ->
    reachable admissible (after (try_sub r input) a)
| reach_read_last_committed a r :
    reachable admissible a -> admissible (max_value a) r ->
    reachable admissible (after (read_last_committed_aggregator_value r) a)
| reach_read_most_recent a r :
    reachable admissible a -> admissible (max_value a) r ->
    reachable admissible (after (read_most_recent_aggregator_value r) a).

(** Resolvers returning any [u128]. *)
Definition u128_resolver (_ : Z) (r : AggregatorResolver) : Prop :=
  resolver_values_in 0 U128_MAX r.

(** Resolvers returning values within the aggregator's bound. *)
Definition bounded_resolver (max_value : Z) (r : AggregatorResolver) : Prop :=
  resolver_values_in 0 max_value r.

(** The four conditions of [validate_against_base_value] as a proposition. *)
Definition valid_base (h : DeltaHistory) (b max_value : Z) : Prop :=
  b + max_achieved_positive_delta h <= max_value /\
  min_achieved_negative_delta h <= b /\
  (forall o, min_overflow_positive_delta h = Some o -> max_value < b + o) /\
  (forall u, max_underflow_negative_delta h = Some u -> b < u).

(** A start value [v] that the history accepts and that [delta] keeps in
    range; the history has recorded [delta] itself. *)
Definition consistent_start (max_value v : Z) (delta : SignedU128) (h : DeltaHistory)
    : Prop :=
  0 <= v <= max_value /\ 0 <= v + signed_value delta <= max_value /\
  valid_base h v max_value /\ 0 <= magnitude delta /\
  match delta with
  | Positive p => p <= max_achieved_positive_delta h
  | Negative n => n <= min_achieved_negative_delta h
  end /\
  0 <= max_achieved_positive_delta h /\ 0 <= min_achieved_negative_delta h.

(** The state invariant.  A last-committed start above [max_value] can only
    come from a resolver that reports such a value ([oversized]); no
    operation succeeds on it. *)
Definition agg_inv (oversized : Prop) (a : Aggregator) : Prop :=
  0 <= max_value a /\
  match state a with
  | Data _ => True
  | Delta Unset delta h => delta = Positive 0 /\ h = DeltaHistory_new
  | Delta (LastCommittedValue b) delta h =>
      (oversized /\ max_value a < b /\ delta = Positive 0 /\ h = DeltaHistory_new) \/
      consistent_start (max_value a) b delta h
  | Delta (AggregatedValue v) delta h => consistent_start (max_value a) v delta h
  end.

(** ** Describing how an operation moves the state *)

(** [st'] is in the same mode as [st]; in [Delta] mode the start value is
    kept or changed as [next] allows. *)
Definition same_mode (next : SpeculativeStartValue -> SpeculativeStartValue -> Prop)
    (st st' : AggregatorState) : Prop :=
  match st, st' with
  | Data _, Data _ => True
  | Delta s _ _, Delta s' _ _ => s' = s \/ next s s'
  | _, _ => False
  end.

(** An [Unset] start becomes a last-committed value. *)
Definition fetched_last_committed (s s' : SpeculativeStartValue) : Prop :=
  s = Unset /\ exists b, s' = LastCommittedValue b.

(** A start that is not yet aggregated becomes an aggregated value. *)
Definition fetched_aggregated (s s' : SpeculativeStartValue) : Prop :=
  (forall v, s <> AggregatedValue v) /\ exists v, s' = AggregatedValue v.

(** The value the aggregator currently denotes, once its start is known. *)
Definition current_value (a : Aggregator) : option Z :=
  match state a with
  | Data v => Some v
  | Delta s d _ =>
      match get_any_value s with
      | Ok v => Some (v + signed_value d)
      | Err _ => None
      end
  end.

(** Every stored snapshot has an id that [generate_id] has already issued. *)
Definition snapshot_ids_issued (d : AggregatorData) : Prop :=
  forall k sn, aggregator_snapshots d !! k = Some sn ->
    aggregator_id_value k <= id_counter d.

(** * Properties *)

(** ** Unfolding the monad *)

Lemma bind_ok {A B} (m : M A) (f : A -> M B) a x a1 l1 :
  m a = (Ok x, a1, l1) ->
  bind m f a = let '(r, a2, l2) := f x a1 in (r, a2, l1 ++ l2).
Proof. intros H. unfold bind. by rewrite H. Qed.

Lemma bind_err {A B} (m : M A) (f : A -> M B) a e a1 l1 :
  m a = (Err e, a1, l1) -> bind m f a = (Err e, a1, l1).
Proof. intros H. unfold bind. by rewrite H. Qed.

Lemma set_state_id a : set_state a (state a) = a.
Proof. by destruct a. Qed.

Lemma id_set_state a s : id (set_state a s) = id a.
Proof. reflexivity. Qed.

Lemma max_value_set_state a s : max_value (set_state a s) = max_value a.
Proof. reflexivity. Qed.

Lemma state_set_state a s : state (set_state a s) = s.
Proof. reflexivity. Qed.

Ltac step_monad :=
  unfold bind, get, put, ret, throw, lift, read_from_storage; cbn -[Z.add Z.sub Z.opp].

(** ** read_last_committed_aggregator_value *)

Lemma rlc_noop r a :
  (exists v, state a = Data v) \/
  (exists s d h, state a = Delta s d h /\ s <> Unset) ->
  read_last_committed_aggregator_value r a = (Ok tt, a, []).
Proof.
  intros [[v Hv] | (s & d & h & Hs & Hne)];
    unfold read_last_committed_aggregator_value; step_monad.
  - by rewrite Hv.
  - rewrite Hs. by destruct s.
Qed.

Lemma rlc_invariant_error r a d h :
  state a = Delta Unset d h -> (d <> Positive 0 \/ h <> DeltaHistory_new) ->
  read_last_committed_aggregator_value r a = (Err CodeInvariantError, a, []).
Proof.
  intros Hs Hbad. unfold read_last_committed_aggregator_value. step_monad.
  rewrite Hs. unfold is_empty.
  destruct Hbad as [Hd | Hh].
  - by rewrite bool_decide_eq_true_2.
  - rewrite (bool_decide_eq_false_2 (h = DeltaHistory_new)) by done.
    by rewrite orb_true_r.
Qed.

Lemma rlc_fetch r a :
  state a = Delta Unset (Positive 0) DeltaHistory_new ->
  read_last_committed_aggregator_value r a =
    match value_or_extension_error (resolver_read r (id a) LastCommitted) with
    | Ok b => (Ok tt, set_state a (Delta (LastCommittedValue b) (Positive 0) DeltaHistory_new),
               [(id a, LastCommitted)])
    | Err e => (Err e, a, [(id a, LastCommitted)])
    end.
Proof.
  intros Hs. unfold read_last_committed_aggregator_value. step_monad.
  rewrite Hs. unfold is_empty.
  rewrite bool_decide_eq_false_2 by congruence.
  rewrite bool_decide_eq_true_2 by done. cbn.
  by destruct (value_or_extension_error _).
Qed.

Lemma NoDup_map_injective {A B} (f : A -> B) (l : list A) :
  (forall x y, f x = f y -> x = y) -> NoDup l -> NoDup (map f l).
Proof.
  intros Hinj Hl. induction Hl as [|x l Hx Hl IH]; simpl; constructor; [|done].
  intros Hin. apply list_elem_of_In, in_map_iff in Hin as (y & Hy & Hin).
  apply Hinj in Hy. subst. by apply Hx, list_elem_of_In.
Qed.

Lemma generate_id_ok d :
  id_counter d < U64_MAX ->
  generate_id d = Some (AggregatorID_new (id_counter d + 1),
                        mk_AggregatorData (new_aggregators d) (destroyed_aggregators d)
                          (aggregators d) (aggregator_snapshots d) (id_counter d + 1)).
Proof.
  intros H. unfold generate_id.
  by rewrite (proj2 (Z.ltb_ge _ _)) by lia.
Qed.

(** ** Claims *)

(** C4: whatever the state, [try_add] and [try_sub] with an input above
    [max_value] return [Ok(false)], leave the aggregator (state, delta and
    history) untouched and never call the resolver. *)
Theorem try_add_try_sub_input_above_max (r : AggregatorResolver) (a : Aggregator) (input : Z) :
  max_value a < input ->
  try_add r input a = (Ok false, a, []) /\ try_sub r input a = (Ok false, a, []).
Proof.
  intros H. unfold try_add, try_sub. step_monad.
  by rewrite (proj2 (Z.ltb_lt _ _) H).
Qed.

(** C5: [read_last_committed_aggregator_value] is a no-op on [Data] and on a
    [Delta] whose start is set; on [Delta{Unset, delta, history}] it fails
    with a code invariant error unless [delta = Positive(0)] and the history
    is empty; otherwise it asks the resolver once (LastCommitted mode) and
    records [LastCommittedValue(b)], or, when the aggregator is absent (or
    the read fails), returns an extension error and leaves the state as it
    was. *)
Theorem read_last_committed_aggregator_value_spec (r : AggregatorResolver) (a : Aggregator) :
  ((exists v, state a = Data v) \/ (exists s d h, state a = Delta s d h /\ s <> Unset) ->
     read_last_committed_aggregator_value r a = (Ok tt, a, [])) /\
  (forall d h, state a = Delta Unset d h -> d <> Positive 0 \/ h <> DeltaHistory_new ->
     read_last_committed_aggregator_value r a = (Err CodeInvariantError, a, [])) /\
  (state a = Delta Unset (Positive 0) DeltaHistory_new ->
     (forall b, resolver_read r (id a) LastCommitted = Ok (Some b) ->
        read_last_committed_aggregator_value r a =
          (Ok tt, set_state a (Delta (LastCommittedValue b) (Positive 0) DeltaHistory_new),
           [(id a, LastCommitted)])) /\
     (resolver_read r (id a) LastCommitted = Ok None ->
        read_last_committed_aggregator_value r a =
          (Err ExtensionError, a, [(id a, LastCommitted)])) /\
     (forall e, resolver_read r (id a) LastCommitted = Err e ->
        read_last_committed_aggregator_value r a =
          (Err ExtensionError, a, [(id a, LastCommitted)]))).
Proof.
  split; [apply rlc_noop|]. split; [intros d h; apply rlc_invariant_error|].
  intros Hs. rewrite (rlc_fetch r a Hs).
  split; [|split]; intros *; intros Hr; by rewrite Hr.
Qed.

(** C7: [remove_aggregator_v1] drops the live entry; an id created in this
    transaction leaves [new_aggregators] and is not recorded as destroyed,
    any other V1 id has its state key added to [destroyed_aggregators]; a V2
    id makes the assertion fail. *)
Theorem remove_aggregator_v1_spec (d : AggregatorData) (k : StateKey) (i : AggregatorID) :
  (V1 k ∈ new_aggregators d ->
     exists d', remove_aggregator_v1 d (V1 k) = Some d' /\
       aggregators d' = delete (V1 k) (aggregators d) /\
       new_aggregators d' = new_aggregators d ∖ {[V1 k]} /\
       destroyed_aggregators d' = destroyed_aggregators d) /\
  (V1 k ∉ new_aggregators d ->
     exists d', remove_aggregator_v1 d (V1 k) = Some d' /\
       aggregators d' = delete (V1 k) (aggregators d) /\
       new_aggregators d' = new_aggregators d /\
       destroyed_aggregators d' = {[k]} ∪ destroyed_aggregators d) /\
  remove_aggregator_v1 d (V2 i) = None.
Proof.
  unfold remove_aggregator_v1. split; [|split]; [intros H..|done].
  - rewrite bool_decide_eq_true_2 by done. eexists; by split.
  - rewrite bool_decide_eq_false_2 by done. eexists; by split.
Qed.

(** C9: [get_aggregator] on an id already in the registry returns the stored
    aggregator and changes nothing: the [max_value] argument is ignored (the
    stored one is kept) and no resolver is involved. *)
Theorem get_aggregator_existing (d : AggregatorData) (vid : AggregatorVersionedID)
    (m : Z) (a : Aggregator) :
  aggregators d !! vid = Some a ->
  get_aggregator d vid m = (Ok a, d).
Proof. intros H. unfold get_aggregator. by rewrite H. Qed.

(** C10: when [snapshot(id)] fails, the error is the code invariant error of
    an unregistered V2 id, the aggregator and snapshot maps are unchanged,
    but [id_counter] has already been incremented: the failed call consumes
    an id. *)
Theorem snapshot_error_consumes_id (d : AggregatorData) (i : AggregatorID)
    (e : PartialVMError) (d' : AggregatorData) :
  snapshot d i = Some (Err e, d') ->
  e = CodeInvariantError /\ aggregators d !! V2 i = None /\
  aggregators d' = aggregators d /\
  aggregator_snapshots d' = aggregator_snapshots d /\
  id_counter d' = id_counter d + 1.
Proof.
  unfold snapshot, generate_id.
  destruct (U64_MAX <? id_counter d + 1); [done|]. cbn.
  destruct (aggregators d !! V2 i); [done|].
  intros [= <- <-]. done.
Qed.

(** C6 (as amended): while [id_counter < u64::MAX], [snapshot(id)] of a
    registered V2 aggregator stores, under the freshly generated id
    [id_counter + 1], the snapshot [Data(Integer(v))] of a [Data{v}] source
    or [Delta{base_aggregator = id, delta, Identity}] of a [Delta] source,
    and returns that id; on an unregistered id it returns a code invariant
    error. *)
Theorem snapshot_spec (d : AggregatorData) (i : AggregatorID) :
  id_counter d < U64_MAX ->
  let sid := AggregatorID_new (id_counter d + 1) in
  (forall a v, aggregators d !! V2 i = Some a -> state a = Data v ->
     exists d', snapshot d i = Some (Ok sid, d') /\
       aggregator_snapshots d' =
         <[sid := mk_AggregatorSnapshot sid (SnapshotData (Integer v))]>
           (aggregator_snapshots d) /\
       aggregators d' = aggregators d /\ id_counter d' = id_counter d + 1) /\
  (forall a s delta h, aggregators d !! V2 i = Some a -> state a = Delta s delta h ->
     exists d', snapshot d i = Some (Ok sid, d') /\
       aggregator_snapshots d' =
         <[sid := mk_AggregatorSnapshot sid (SnapshotDelta i delta Identity)]>
           (aggregator_snapshots d) /\
       aggregators d' = aggregators d /\ id_counter d' = id_counter d + 1) /\
  (aggregators d !! V2 i = None ->
     exists d', snapshot d i = Some (Err CodeInvariantError, d')).
Proof.
  intros Hc sid. unfold snapshot. rewrite (generate_id_ok d Hc). cbn.
  split; [|split].
  - intros a v Ha Hs. rewrite Ha, Hs. eexists; by split.
  - intros a s delta h Ha Hs. rewrite Ha, Hs. eexists; by split.
  - intros Ha. rewrite Ha. by eexists.
Qed.

(** C6 fails as stated at [id_counter = u64::MAX]: the increment inside
    [generate_id] panics, so [snapshot] of a registered V2 aggregator returns
    neither the snapshot id nor an error. *)
Lemma snapshot_at_u64_max_panics :
  let i := AggregatorID_new 1 in
  let d := create_new_aggregator (AggregatorData_new U64_MAX) (V2 i) 100 in
  is_Some (aggregators d !! V2 i) /\ snapshot d i = None.
Proof. split; [eexists|]; reflexivity. Qed.

(** C8 (as amended): below [u64::MAX], [generate_id] returns
    [AggregatorID(c + 1)] and leaves the counter at [c + 1]; [n] successive
    calls from seed [c] with [c + n <= u64::MAX] return
    [c + 1, ..., c + n], which are pairwise distinct. *)
Theorem generate_id_increments (d : AggregatorData) (n : nat) :
  (id_counter d < U64_MAX ->
     exists d', generate_id d = Some (AggregatorID_new (id_counter d + 1), d') /\
       id_counter d' = id_counter d + 1) /\
  (id_counter d + Z.of_nat n <= U64_MAX ->
     exists d', generate_ids n d =
       Some (map (fun k => AggregatorID_new (id_counter d + Z.of_nat k)) (seq 1 n), d') /\
       id_counter d' = id_counter d + Z.of_nat n /\
       NoDup (map (fun k => AggregatorID_new (id_counter d + Z.of_nat k)) (seq 1 n))).
Proof.
  split.
  { intros H. rewrite (generate_id_ok d H). eexists; by split. }
  intros Hn.
  assert (Hnd : NoDup (map (fun k => AggregatorID_new (id_counter d + Z.of_nat k)) (seq 1 n))).
  { apply NoDup_map_injective; [|apply NoDup_seq]. intros x y [= Hxy]. lia. }
  cut (exists d', generate_ids n d =
       Some (map (fun k => AggregatorID_new (id_counter d + Z.of_nat k)) (seq 1 n), d') /\
       id_counter d' = id_counter d + Z.of_nat n).
  { intros (d' & ? & ?). by exists d'. }
  clear Hnd. revert d Hn. induction n as [|n IH]; intros d Hn.
  - exists d. simpl. split; [done | lia].
  - simpl. rewrite (generate_id_ok d) by lia.
    destruct (IH (mk_AggregatorData (new_aggregators d) (destroyed_aggregators d)
                    (aggregators d) (aggregator_snapshots d) (id_counter d + 1)))
      as (d' & Hg & Hc); [simpl; lia|].
    rewrite Hg. exists d'. simpl in *. split; [|lia].
    replace (id_counter d + Z.of_nat 1) with (id_counter d + 1) by lia.
    rewrite <- (seq_shift n 1), map_map.
    do 3 f_equal. apply map_ext. intros k. f_equal. lia.
Qed.

(** C8 fails as stated at [c = u64::MAX]: the increment panics instead of
    returning [AggregatorID(c + 1)]. *)
Lemma generate_id_at_u64_max_panics :
  generate_id (AggregatorData_new U64_MAX) = None.
Proof. reflexivity. Qed.


(** ** Delta-mode arithmetic of [try_add] and [try_sub] *)

Ltac unfold_math :=
  unfold expect_ok, map_err, ok_overflow, is_err, unsigned_add_delta, unsigned_add,
    unsigned_subtract, signed_add, signed_value, minus in *.

(** Case on every comparison left in the goal, discarding impossible
    branches. *)
Ltac zcases :=
  repeat (cbn -[Z.add Z.sub Z.opp];
          match goal with
          | |- context [?x <? ?y] => destruct (Z.ltb_spec x y); try lia
          | |- context [?x <=? ?y] => destruct (Z.leb_spec x y); try lia
          end).

Ltac run_delta_op :=
  unfold try_add, try_sub, read_last_committed_aggregator_value; step_monad;
  repeat match goal with
         | H : ?m < ?i |- context [?m <? ?i] => rewrite (proj2 (Z.ltb_lt _ _) H)
         | H : ?i <= ?m |- context [?m <? ?i] => rewrite (proj2 (Z.ltb_ge _ _) H)
         end;
  cbn -[Z.add Z.sub Z.opp]; unfold_math.

Lemma delta_mode_ops (r : AggregatorResolver) (a : Aggregator)
    (s : SpeculativeStartValue) (start : Z) (delta : SignedU128) (h : DeltaHistory)
    (input : Z) :
  state a = Delta s delta h ->
  get_any_value s = Ok start ->
  0 <= start <= max_value a ->
  0 <= start + signed_value delta <= max_value a ->
  0 <= input <= max_value a ->
  (start + signed_value delta + input <= max_value a ->
     exists new_delta, signed_value new_delta = signed_value delta + input /\
       (0 <= magnitude delta -> 0 <= magnitude new_delta) /\
       try_add r input a =
         (Ok true, set_state a (Delta s new_delta (record_success h new_delta)), [])) /\
  (max_value a < start + signed_value delta + input ->
     try_add r input a =
       (Ok false,
        set_state a (Delta s delta
          (if decide (0 <= input + signed_value delta <= max_value a)
           then record_overflow h (input + signed_value delta) else h)), [])) /\
  (start + signed_value delta < input ->
     try_sub r input a =
       (Ok false,
        set_state a (Delta s delta
          (if decide (0 <= input - signed_value delta <= max_value a)
           then record_underflow h (input - signed_value delta) else h)), [])) /\
  (input <= start + signed_value delta ->
     exists new_delta, signed_value new_delta = signed_value delta - input /\
       (0 <= magnitude delta -> 0 <= magnitude new_delta) /\
       try_sub r input a =
         (Ok true, set_state a (Delta s new_delta (record_success h new_delta)), [])).
Proof.
  destruct a as [vid m st]; cbn [state max_value set_state]. intros -> Hs Hst Hcur Hin.
  destruct s as [|v|v]; [discriminate|..]; injection Hs as <-;
    split_and!; intros Hcase;
    destruct delta as [dv|dv]; cbn [signed_value magnitude] in *; run_delta_op; zcases;
    try (eexists; split_and!; [| |reflexivity]; cbn; lia);
    repeat first [ rewrite decide_True by lia | rewrite decide_False by lia ];
    repeat f_equal; lia.
Qed.

(** C1 (as amended): in [Delta] mode with an initialised start value [s]
    satisfying [s <= max_value] and [s + delta] in [[0, max_value]], and an
    input in [[0, max_value]]:
    - [try_add] succeeds iff [s + delta + input <= max_value]; it then sets
      [delta] to a value [delta + input], records it with [record_success] and
      returns [Ok(true)]; otherwise it returns [Ok(false)], keeps [delta] and
      calls [record_overflow(input + delta)] exactly when that sum lies in
      [[0, max_value]];
    - [try_sub] fails iff [s + delta < input]; it then returns [Ok(false)],
      keeps [delta] and calls [record_underflow(input - delta)] exactly when
      that sum lies in [[0, max_value]]; otherwise it sets [delta] to a value
      [delta - input], records it with [record_success] and returns
      [Ok(true)].
    Neither consults the resolver. *)
Theorem try_add_try_sub_delta_mode (r : AggregatorResolver) (a : Aggregator)
    (s : SpeculativeStartValue) (start : Z) (delta : SignedU128) (h : DeltaHistory)
    (input : Z) :
  state a = Delta s delta h ->
  get_any_value s = Ok start ->
  0 <= start <= max_value a ->
  0 <= start + signed_value delta <= max_value a ->
  0 <= input <= max_value a ->
  (start + signed_value delta + input <= max_value a ->
     exists new_delta, signed_value new_delta = signed_value delta + input /\
       try_add r input a =
         (Ok true, set_state a (Delta s new_delta (record_success h new_delta)), [])) /\
  (max_value a < start + signed_value delta + input ->
     try_add r input a =
       (Ok false,
        set_state a (Delta s delta
          (if decide (0 <= input + signed_value delta <= max_value a)
           then record_overflow h (input + signed_value delta) else h)), [])) /\
  (start + signed_value delta < input ->
     try_sub r input a =
       (Ok false,
        set_state a (Delta s delta
          (if decide (0 <= input - signed_value delta <= max_value a)
           then record_underflow h (input - signed_value delta) else h)), [])) /\
  (input <= start + signed_value delta ->
     exists new_delta, signed_value new_delta = signed_value delta - input /\
       try_sub r input a =
         (Ok true, set_state a (Delta s new_delta (record_success h new_delta)), [])).
Proof.
  intros Hs Hany Hst Hcur Hin.
  destruct (delta_mode_ops r a s start delta h input Hs Hany Hst Hcur Hin)
    as (Hadd & Hovf & Hund & Hsub).
  split_and!; [| done | done |]; intros Hc.
  - destruct (Hadd Hc) as (nd & Hv & _ & Hr). by exists nd.
  - destruct (Hsub Hc) as (nd & Hv & _ & Hr). by exists nd.
Qed.

(** ** The state invariant *)

Lemma validate_ok_iff (h : DeltaHistory) (b m : Z) :
  validate_against_base_value h b m = Ok tt <-> valid_base h b m.
Proof.
  destruct h as [mp mn mo mu]. unfold validate_against_base_value, valid_base. cbn.
  destruct (Z.ltb_spec m (b + mp)); [|destruct (Z.ltb_spec b mn)];
    [| |destruct mo as [o|]; [destruct (Z.leb_spec (b + o) m)|];
        destruct mu as [u|]; try destruct (Z.leb_spec u b)]; cbn;
  (split; [intros Hv; try discriminate Hv; split_and!; try lia; intros ? [= <-]; lia
          | intros (? & ? & Ho & Hu); try reflexivity; exfalso;
            first [lia | specialize (Ho _ eq_refl); lia | specialize (Hu _ eq_refl); lia]]).
Qed.

Lemma input_above_max_noop r a input :
  max_value a < input ->
  try_add r input a = (Ok false, a, []) /\ try_sub r input a = (Ok false, a, []).
Proof.
  intros H. unfold try_add, try_sub. step_monad.
  by rewrite (proj2 (Z.ltb_lt _ _) H).
Qed.

Lemma consistent_record_success m v d h nd :
  consistent_start m v d h -> 0 <= magnitude nd -> 0 <= v + signed_value nd <= m ->
  consistent_start m v nd (record_success h nd).
Proof.
  destruct h as [mp mn mo mu], nd as [p|p];
    unfold consistent_start, valid_base; cbn; intuition lia.
Qed.

Lemma consistent_record_overflow m v d h x :
  consistent_start m v d h -> m < v + x ->
  consistent_start m v d (record_overflow h x).
Proof.
  destruct h as [mp mn mo mu];
    unfold consistent_start, valid_base; cbn;
    intros (Hv & Hcur & (Hb1 & Hb2 & Ho & Hu) & Hm & Hcov & Hp & Hn) Hx.
  refine (conj Hv (conj Hcur (conj (conj Hb1 (conj Hb2 (conj _ Hu)))
                                 (conj Hm (conj Hcov (conj Hp Hn)))))).
  intros o' [= <-]. destruct mo as [o|]; [specialize (Ho o eq_refl)|]; lia.
Qed.

Lemma consistent_record_underflow m v d h x :
  consistent_start m v d h -> v < x ->
  consistent_start m v d (record_underflow h x).
Proof.
  destruct h as [mp mn mo mu];
    unfold consistent_start, valid_base; cbn;
    intros (Hv & Hcur & (Hb1 & Hb2 & Ho & Hu) & Hm & Hcov & Hp & Hn) Hx.
  refine (conj Hv (conj Hcur (conj (conj Hb1 (conj Hb2 (conj Ho _)))
                                 (conj Hm (conj Hcov (conj Hp Hn)))))).
  intros u' [= <-]. destruct mu as [u|]; [specialize (Hu u eq_refl)|]; lia.
Qed.

Lemma consistent_try_add_try_sub r a s v d h input :
  state a = Delta s d h -> get_any_value s = Ok v ->
  consistent_start (max_value a) v d h -> 0 <= input ->
  (exists res d' h', try_add r input a = (res, set_state a (Delta s d' h'), []) /\
     consistent_start (max_value a) v d' h') /\
  (exists res d' h', try_sub r input a = (res, set_state a (Delta s d' h'), []) /\
     consistent_start (max_value a) v d' h').
Proof.
  intros Hs Hany Hc Hin.
  destruct (Z.ltb_spec (max_value a) input) as [Hbig|Hle].
  { destruct (input_above_max_noop r a input Hbig) as [-> ->].
    split; exists (Ok false), d, h; rewrite <- Hs, set_state_id; by split. }
  pose proof Hc as (Hv & Hcur & _ & Hmag & _).
  destruct (delta_mode_ops r a s v d h input Hs Hany ltac:(lia) ltac:(lia) ltac:(lia))
    as (Hadd & Hovf & Hund & Hsub).
  split.
  - destruct (Z.le_gt_cases (v + signed_value d + input) (max_value a)) as [Hc'|Hc'].
    + destruct (Hadd Hc') as (nd & Hnd & Hmag' & ->).
      do 3 eexists; split; [done|]. apply (consistent_record_success _ _ d); [done|auto|lia].
    + rewrite (Hovf Hc'). do 3 eexists; split; [done|].
      destruct (decide (0 <= input + signed_value d <= max_value a));
        [apply consistent_record_overflow|]; auto; lia.
  - destruct (Z.lt_ge_cases (v + signed_value d) input) as [Hc'|Hc'].
    + rewrite (Hund Hc'). do 3 eexists; split; [done|].
      destruct (decide (0 <= input - signed_value d <= max_value a));
        [apply consistent_record_underflow|]; auto; lia.
    + destruct (Hsub Hc') as (nd & Hnd & Hmag' & ->).
      do 3 eexists; split; [done|]. apply (consistent_record_success _ _ d); [done|auto|lia].
Qed.

Lemma try_ops_after_fetch r input a a1 l :
  input <= max_value a ->
  read_last_committed_aggregator_value r a = (Ok tt, a1, l) ->
  read_last_committed_aggregator_value r a1 = (Ok tt, a1, []) ->
  max_value a1 = max_value a ->
  after (try_add r input) a = after (try_add r input) a1 /\
  after (try_sub r input) a = after (try_sub r input) a1.
Proof.
  intros Hle Hr Hr1 Hm. unfold after, try_add, try_sub. cbv [bind get].
  rewrite Hm, (proj2 (Z.ltb_ge _ _) Hle), Hr, Hr1.
  split; repeat (case_match; simplify_eq/=); done.
Qed.

Lemma oversized_start_stuck r input a b :
  state a = Delta (LastCommittedValue b) (Positive 0) DeltaHistory_new ->
  max_value a < b -> input <= max_value a ->
  try_add r input a = (Err CodeInvariantError, a, []) /\
  try_sub r input a = (Err CodeInvariantError, a, []).
Proof.
  destruct a as [vid m st]; cbn [state max_value]. intros -> Hb Hin.
  split; run_delta_op; zcases; done.
Qed.

Lemma ops_keep_max_value r input a :
  max_value (after (try_add r input) a) = max_value a /\
  max_value (after (try_sub r input) a) = max_value a /\
  max_value (after (read_last_committed_aggregator_value r) a) = max_value a /\
  max_value (after (read_most_recent_aggregator_value r) a) = max_value a.
Proof.
  unfold after, try_add, try_sub, read_last_committed_aggregator_value,
    read_most_recent_aggregator_value, read_from_storage.
  cbv [bind get put ret throw lift].
  split_and!; repeat (case_match; simplify_eq/=); done.
Qed.

Lemma data_mode_stays r input a v :
  state a = Data v ->
  (exists v', state (after (try_add r input) a) = Data v') /\
  (exists v', state (after (try_sub r input) a) = Data v') /\
  after (read_last_committed_aggregator_value r) a = a /\
  read_most_recent_aggregator_value r a = (Ok v, a, []).
Proof.
  destruct a as [vid m st]; cbn [state]. intros ->.
  unfold after, try_add, try_sub, read_last_committed_aggregator_value,
    read_most_recent_aggregator_value.
  cbv [bind get put ret throw lift]. cbn.
  split_and!; try done; destruct (m <? input); cbn; eauto.
  - destruct (unsigned_add (BoundedMath_new m) v input); eauto.
  - destruct (unsigned_subtract (BoundedMath_new m) v input); eauto.
Qed.

Lemma rmr_aggregated r a v d h :
  state a = Delta (AggregatedValue v) d h ->
  read_most_recent_aggregator_value r a =
    (map_err MathError (unsigned_add_delta (BoundedMath_new (max_value a)) v d), a, []).
Proof.
  intros Hs. unfold read_most_recent_aggregator_value. step_monad. by rewrite Hs.
Qed.

Lemma rmr_fetch r a s d h :
  state a = Delta s d h -> (forall v, s <> AggregatedValue v) ->
  read_most_recent_aggregator_value r a =
    match value_or_extension_error (resolver_read r (id a) Aggregated) with
    | Err e => (Err e, a, [(id a, Aggregated)])
    | Ok v =>
        match validate_against_base_value h v (max_value a) with
        | Err e => (Err (SpeculativeInvalidation e), a, [(id a, Aggregated)])
        | Ok _ =>
            match unsigned_add_delta (BoundedMath_new (max_value a)) v d with
            | Err _ => (Err CodeInvariantError, a, [(id a, Aggregated)])
            | Ok res => (Ok res, set_state a (Delta (AggregatedValue v) d h),
                         [(id a, Aggregated)])
            end
        end
    end.
Proof.
  intros Hs Hnot. unfold read_most_recent_aggregator_value. step_monad.
  rewrite Hs. destruct s as [|b|v]; [| |by destruct (Hnot v)]; cbn;
    repeat (case_match; simplify_eq/=); done.
Qed.

Lemma try_ops_after_failed_fetch r input a a1 e l :
  input <= max_value a ->
  read_last_committed_aggregator_value r a = (Err e, a1, l) ->
  after (try_add r input) a = a1 /\ after (try_sub r input) a = a1.
Proof.
  intros Hle Hr. unfold after, try_add, try_sub. cbv [bind get].
  rewrite (proj2 (Z.ltb_ge _ _) Hle), Hr. done.
Qed.

Lemma value_or_extension_error_ok rr v :
  value_or_extension_error rr = Ok v -> rr = Ok (Some v).
Proof. by destruct rr as [[]|]; intros [=->]. Qed.

Lemma unsigned_add_delta_ok m v d res :
  unsigned_add_delta (BoundedMath_new m) v d = Ok res ->
  res = v + signed_value d /\ 0 <= res <= m.
Proof.
  unfold unsigned_add_delta; cbn.
  destruct (Z.ltb_spec (v + signed_value d) 0); [done|].
  destruct (Z.ltb_spec m (v + signed_value d)); [done|].
  intros [= <-]. lia.
Qed.

Lemma consistent_inv oversized a s v d h :
  get_any_value s = Ok v -> 0 <= max_value a ->
  consistent_start (max_value a) v d h ->
  agg_inv oversized (set_state a (Delta s d h)).
Proof.
  intros Hany Hm Hc. split; [done|]. cbn.
  destruct s; simplify_eq/=; auto.
Qed.

Lemma inv_delta_recorded oversized a s d h :
  agg_inv oversized a -> state a = Delta s d h ->
  0 <= magnitude d /\
  match d with
  | Positive p => p <= max_achieved_positive_delta h
  | Negative n => n <= min_achieved_negative_delta h
  end /\
  0 <= max_achieved_positive_delta h /\ 0 <= min_achieved_negative_delta h.
Proof.
  unfold agg_inv, consistent_start. intros [_ Hst] Hs. rewrite Hs in Hst.
  destruct s as [|b|v].
  - destruct Hst as [-> ->]. cbn. lia.
  - destruct Hst as [(_ & _ & -> & ->) | (_ & _ & _ & ?)]; [cbn; lia | done].
  - destruct Hst as (_ & _ & _ & ?). done.
Qed.

(** After validation, a recorded delta applies to the validated base. *)
Lemma recorded_delta_applies m v d h :
  valid_base h v m -> 0 <= magnitude d ->
  match d with
  | Positive p => p <= max_achieved_positive_delta h
  | Negative n => n <= min_achieved_negative_delta h
  end ->
  0 <= max_achieved_positive_delta h -> 0 <= min_achieved_negative_delta h ->
  unsigned_add_delta (BoundedMath_new m) v d = Ok (v + signed_value d).
Proof.
  intros (Hb1 & Hb2 & _ & _) Hmag Hcov Hp Hn.
  unfold unsigned_add_delta; cbn.
  destruct (Z.ltb_spec (v + signed_value d) 0);
    [destruct d; cbn in *; lia|].
  destruct (Z.ltb_spec m (v + signed_value d));
    [destruct d; cbn in *; lia|done].
Qed.

Section Invariant.
(** Resolvers the environment may pass, and whether they may report a value
    above the aggregator's bound. *)
Variable admissible : Z -> AggregatorResolver -> Prop.
Variable oversized : Prop.
Hypothesis admissible_values : forall m r vid mode v,
  admissible m r -> resolver_read r vid mode = Ok (Some v) ->
  0 <= v /\ (m < v -> oversized).

Lemma fetched_start_inv a r b :
  agg_inv oversized a -> admissible (max_value a) r ->
  resolver_read r (id a) LastCommitted = Ok (Some b) ->
  agg_inv oversized (set_state a (Delta (LastCommittedValue b) (Positive 0) DeltaHistory_new)).
Proof.
  intros [Hm _] Hadm Hr. destruct (admissible_values _ _ _ _ _ Hadm Hr) as [Hb Hov].
  split; [done|]. cbn.
  destruct (Z.ltb_spec (max_value a) b); [left; auto|right].
  unfold consistent_start, valid_base; cbn. split_and!; try lia; done.
Qed.

Lemma consistent_ops_inv r input a s v d h :
  state a = Delta s d h -> get_any_value s = Ok v ->
  consistent_start (max_value a) v d h -> 0 <= max_value a -> 0 <= input ->
  agg_inv oversized (after (try_add r input) a) /\
  agg_inv oversized (after (try_sub r input) a).
Proof.
  intros Hs Hany Hc Hm Hin.
  destruct (consistent_try_add_try_sub r a s v d h input Hs Hany Hc Hin)
    as [(res & d' & h' & Ha & Hc') (res' & d'' & h'' & Hb & Hc'')].
  unfold after. rewrite Ha, Hb. split; by eapply consistent_inv.
Qed.

Lemma inv_try_ops a r input :
  agg_inv oversized a -> admissible (max_value a) r -> 0 <= input ->
  agg_inv oversized (after (try_add r input) a) /\
  agg_inv oversized (after (try_sub r input) a).
Proof.
  intros Hinv Hadm Hin.
  destruct (Z.ltb_spec (max_value a) input) as [Hbig|Hle].
  { destruct (input_above_max_noop r a input Hbig) as [Ha Hb].
    unfold after. by rewrite Ha, Hb. }
  pose proof Hinv as [Hm Hst].
  destruct (state a) as [v|s d h] eqn:Es.
  - destruct (data_mode_stays r input a v Es) as ((v1 & H1) & (v2 & H2) & _).
    destruct (ops_keep_max_value r input a) as (M1 & M2 & _).
    split; split; rewrite ?M1, ?M2, ?H1, ?H2; done.
  - destruct s as [|b|v].
    + destruct Hst as [-> ->].
      pose proof (rlc_fetch r a Es) as Hr.
      destruct (value_or_extension_error (resolver_read r (id a) LastCommitted))
        as [b|e] eqn:E.
      * apply value_or_extension_error_ok in E.
        set (a1 := set_state a (Delta (LastCommittedValue b) (Positive 0) DeltaHistory_new)).
        assert (Hr1 : read_last_committed_aggregator_value r a1 = (Ok tt, a1, [])).
        { apply rlc_noop. right. by do 3 eexists. }
        destruct (try_ops_after_fetch r input a a1 _ Hle Hr Hr1 eq_refl) as [-> ->].
        pose proof (fetched_start_inv a r b Hinv Hadm E) as Hinv1.
        destruct (Z.ltb_spec (max_value a) b) as [Hb|Hb].
        -- destruct (oversized_start_stuck r input a1 b eq_refl Hb Hle) as [Ha Hs].
           unfold after. by rewrite Ha, Hs.
        -- apply (consistent_ops_inv r input a1 (LastCommittedValue b) b
                    (Positive 0) DeltaHistory_new); try done.
           destruct Hinv1 as [_ [(_ & ? & _) | ?]]; [cbn in *; lia | done].
      * destruct (try_ops_after_failed_fetch r input a a e _ Hle Hr) as [-> ->].
        done.
    + destruct Hst as [(_ & Hb & -> & ->) | Hc].
      * destruct (oversized_start_stuck r input a b Es Hb Hle) as [Ha Hs].
        unfold after. by rewrite Ha, Hs.
      * by apply (consistent_ops_inv r input a (LastCommittedValue b) b d h).
    + by apply (consistent_ops_inv r input a (AggregatedValue v) v d h).
Qed.

Lemma inv_read_last_committed a r :
  agg_inv oversized a -> admissible (max_value a) r ->
  agg_inv oversized (after (read_last_committed_aggregator_value r) a).
Proof.
  intros Hinv Hadm. pose proof Hinv as [Hm Hst].
  unfold after.
  destruct (state a) as [v|[|b|v] d h] eqn:Es;
    [| |rewrite (rlc_noop r a); [done|right; by do 3 eexists]..].
  - rewrite (rlc_noop r a); [done|left; by eexists].
  - destruct Hst as [-> ->]. rewrite (rlc_fetch r a Es).
    destruct (value_or_extension_error _) as [b|e] eqn:E; [|done].
    apply value_or_extension_error_ok in E. by apply (fetched_start_inv a r b).
Qed.

Lemma inv_read_most_recent a r :
  agg_inv oversized a ->
  agg_inv oversized (after (read_most_recent_aggregator_value r) a).
Proof.
  intros Hinv. pose proof Hinv as [Hm Hst].
  destruct (state a) as [v|s d h] eqn:Es.
  { destruct (data_mode_stays r 0 a v Es) as (_ & _ & _ & Hr).
    unfold after. by rewrite Hr. }
  destruct s as [|b|v]; cycle 2.
  { unfold after. by rewrite (rmr_aggregated r a v d h Es). }
  all: unfold after; rewrite (rmr_fetch r a _ d h Es) by done.
  all: destruct (value_or_extension_error _) as [v|e]; [|done].
  all: destruct (validate_against_base_value h v (max_value a)) as [[]|e] eqn:Ev; [|done].
  all: destruct (unsigned_add_delta _ v d) as [res|] eqn:Ed; [|done].
  all: apply validate_ok_iff in Ev; apply unsigned_add_delta_ok in Ed.
  all: destruct (inv_delta_recorded oversized a _ d h Hinv Es) as (? & ? & ? & ?).
  all: split; [done|]; cbn; unfold consistent_start.
  all: pose proof Ev as (? & ? & _); split_and!; try done; lia.
Qed.

Lemma reachable_inv a : reachable admissible a -> agg_inv oversized a.
Proof.
  induction 1 as [vid m Hm|vid m Hm|a r input _ IH Hadm Hin|a r input _ IH Hadm Hin
                 |a r _ IH Hadm|a r _ IH Hadm].
  - split; [cbn; unfold is_u128 in Hm; lia | done].
  - split; [cbn; unfold is_u128 in Hm; lia | done].
  - apply inv_try_ops; [done..|unfold is_u128 in Hin; lia].
  - apply inv_try_ops; [done..|unfold is_u128 in Hin; lia].
  - by apply inv_read_last_committed.
  - by apply inv_read_most_recent.
Qed.
End Invariant.

Lemma u128_resolver_values m r vid mode v :
  u128_resolver m r -> resolver_read r vid mode = Ok (Some v) ->
  0 <= v /\ (m < v -> True).
Proof. intros Hr Hv. apply Hr in Hv. split; [lia | done]. Qed.

Lemma bounded_resolver_values m r vid mode v :
  bounded_resolver m r -> resolver_read r vid mode = Ok (Some v) ->
  0 <= v /\ (m < v -> False).
Proof. intros Hr Hv. apply Hr in Hv. split; lia. Qed.

Lemma const_resolver_values lo hi b :
  lo <= b <= hi -> resolver_values_in lo hi (const_resolver b).
Proof. intros Hb [k|i] mode v; cbn; intros [= <-]; lia. Qed.

(** ** Reachable states: history and reads *)

(** C2 (as amended): when every resolver the aggregator consults reports
    values within [[0, max_value]], every [Delta{start, delta, history}]
    reached from [Data{0}] or [Delta{Unset, 0, empty}] through [try_add],
    [try_sub] and the two reads, with an initialised [start], satisfies
    [history.validate_against_base_value(start, max_value)]. *)
Theorem reachable_history_validates (a : Aggregator) (s : SpeculativeStartValue)
    (d : SignedU128) (h : DeltaHistory) (v : Z) :
  reachable bounded_resolver a ->
  state a = Delta s d h ->
  get_any_value s = Ok v ->
  validate_against_base_value h v (max_value a) = Ok tt.
Proof.
  intros Hr Hs Hv.
  destruct (reachable_inv bounded_resolver False bounded_resolver_values a Hr) as [_ Hst].
  rewrite Hs in Hst. apply validate_ok_iff.
  destruct s as [|b|b]; simplify_eq/=.
  - destruct Hst as [(? & _) | (_ & _ & ? & _)]; done.
  - destruct Hst as (_ & _ & ? & _). done.
Qed.

(** C2 fails for a resolver that reports a committed value above
    [max_value]: [try_add(0)] on a freshly fetched aggregator with
    [max_value = 10] and committed value [11] leaves
    [Delta{LastCommittedValue(11), 0, empty}], whose history rejects the
    start value. *)
Lemma history_rejects_oversized_start :
  let a := after (try_add (const_resolver 11) 0) (fresh_aggregator (V1 "k"%string) 10) in
  reachable u128_resolver a /\
  state a = Delta (LastCommittedValue 11) (Positive 0) DeltaHistory_new /\
  validate_against_base_value DeltaHistory_new 11 (max_value a) = Err DeltaOverflow.
Proof.
  split; [|split; reflexivity].
  apply reach_try_add; [apply reach_fetched; unfold is_u128, U128_MAX; lia| |
                        unfold is_u128, U128_MAX; lia].
  apply const_resolver_values. unfold U128_MAX. lia.
Qed.

(** C1 fails without bounds on the start value: on the same reached state
    ([start = 11] above [max_value = 10], [delta = 0]) the claim predicts
    [Ok(false)] for [try_add(0)] since [11 + 0 + 0 > 10], but the code
    returns a code invariant error from [expect_ok] and leaves the state
    unchanged. *)
Lemma try_add_oversized_start_invariant_error :
  let a := after (try_add (const_resolver 11) 0) (fresh_aggregator (V1 "k"%string) 10) in
  state a = Delta (LastCommittedValue 11) (Positive 0) DeltaHistory_new /\
  0 <= 0 <= max_value a /\
  max_value a < 11 + signed_value (Positive 0) + 0 /\
  try_add empty_resolver 0 a = (Err CodeInvariantError, a, []).
Proof.
  intros a. assert (Hm : max_value a = 10) by reflexivity.
  rewrite Hm. cbn [signed_value]. split_and!; [reflexivity|lia..|reflexivity].
Qed.

(** C3: on any reachable aggregator (resolvers reporting any [u128]),
    [read_most_recent_aggregator_value] returns [v] on [Data{v}] and
    [v + delta] on [Delta{AggregatedValue(v), delta, _}] without consulting
    the resolver; from any other start it reads [v] once in Aggregated mode,
    validates it against the history, and only if that succeeds records
    [AggregatedValue(v)] and returns [v + delta]; a failed validation
    (speculative invalidation) or a failed or empty read returns an error
    and leaves the aggregator unchanged. *)
Theorem read_most_recent_spec (r : AggregatorResolver) (a : Aggregator) :
  reachable u128_resolver a ->
  (forall v, state a = Data v ->
     read_most_recent_aggregator_value r a = (Ok v, a, [])) /\
  (forall v d h, state a = Delta (AggregatedValue v) d h ->
     read_most_recent_aggregator_value r a = (Ok (v + signed_value d), a, [])) /\
  (forall s d h, state a = Delta s d h -> (forall v, s <> AggregatedValue v) ->
     (forall v, resolver_read r (id a) Aggregated = Ok (Some v) ->
        validate_against_base_value h v (max_value a) = Ok tt ->
        read_most_recent_aggregator_value r a =
          (Ok (v + signed_value d), set_state a (Delta (AggregatedValue v) d h),
           [(id a, Aggregated)])) /\
     (forall v e, resolver_read r (id a) Aggregated = Ok (Some v) ->
        validate_against_base_value h v (max_value a) = Err e ->
        read_most_recent_aggregator_value r a =
          (Err (SpeculativeInvalidation e), a, [(id a, Aggregated)])) /\
     (resolver_read r (id a) Aggregated = Ok None \/
      (exists msg, resolver_read r (id a) Aggregated = Err msg) ->
        read_most_recent_aggregator_value r a =
          (Err ExtensionError, a, [(id a, Aggregated)]))).
Proof.
  intros Hr.
  pose proof (reachable_inv u128_resolver True u128_resolver_values a Hr) as Hinv.
  split_and!.
  - intros v Hs. apply (data_mode_stays r 0 a v Hs).
  - intros v d h Hs. rewrite (rmr_aggregated r a v d h Hs).
    destruct Hinv as [_ Hst]. rewrite Hs in Hst. destruct Hst as (_ & Hc & _).
    unfold unsigned_add_delta; cbn.
    destruct (Z.ltb_spec (v + signed_value d) 0); [lia|].
    destruct (Z.ltb_spec (max_value a) (v + signed_value d)); [lia|done].
  - intros s d h Hs Hnot. rewrite (rmr_fetch r a s d h Hs Hnot). split_and!.
    + intros v Hv Hval. rewrite Hv; cbn. rewrite Hval.
      pose proof (proj1 (validate_ok_iff _ _ _) Hval) as Hb.
      destruct (inv_delta_recorded True a s d h Hinv Hs) as (? & ? & ? & ?).
      by rewrite (recorded_delta_applies (max_value a) v d h).
    + intros v e Hv Hval. rewrite Hv; cbn. by rewrite Hval.
    + intros [Hn | [msg Hm]]; by rewrite ?Hn, ?Hm.
Qed.

(** ** Concrete instances of the claims *)

Lemma try_add_try_sub_delta_mode_witness :
  let a := mk_Aggregator (V1 "k"%string) 100
             (Delta (LastCommittedValue 40) (Positive 10) DeltaHistory_new) in
  exists nd, signed_value nd = 40 /\
    try_add empty_resolver 30 a =
      (Ok true, set_state a (Delta (LastCommittedValue 40) nd (record_success DeltaHistory_new nd)), []).
Proof.
  intros a.
  destruct (try_add_try_sub_delta_mode empty_resolver a (LastCommittedValue 40) 40
              (Positive 10) DeltaHistory_new 30 eq_refl eq_refl)
    as (Hadd & _); cbn; try lia.
  destruct Hadd as (nd & Hnd & Hr); [cbn; lia|].
  exists nd. split; [cbn in Hnd; lia | exact Hr].
Defined.

Lemma reachable_history_validates_witness :
  let a := after (try_add (const_resolver 5) 3) (fresh_aggregator (V1 "k"%string) 10) in
  reachable bounded_resolver a /\
  state a = Delta (LastCommittedValue 5) (Positive 3)
              (record_success DeltaHistory_new (Positive 3)) /\
  validate_against_base_value (record_success DeltaHistory_new (Positive 3)) 5 (max_value a)
    = Ok tt.
Proof.
  intros a.
  assert (Hr : reachable bounded_resolver a).
  { apply reach_try_add; [apply reach_fetched; unfold is_u128, U128_MAX; lia| |
                          unfold is_u128, U128_MAX; lia].
    apply const_resolver_values. cbn. lia. }
  split; [exact Hr|]. split; [reflexivity|].
  exact (reachable_history_validates a (LastCommittedValue 5) (Positive 3)
           (record_success DeltaHistory_new (Positive 3)) 5 Hr eq_refl eq_refl).
Defined.

Lemma read_most_recent_spec_witness :
  let a := fresh_aggregator (V1 "k"%string) 100 in
  reachable u128_resolver a /\
  read_most_recent_aggregator_value (const_resolver 40) a =
    (Ok 40, set_state a (Delta (AggregatedValue 40) (Positive 0) DeltaHistory_new),
     [(V1 "k"%string, Aggregated)]).
Proof.
  intros a.
  assert (Hr : reachable u128_resolver a).
  { apply reach_fetched. unfold is_u128, U128_MAX. lia. }
  split; [exact Hr|].
  destruct (read_most_recent_spec (const_resolver 40) a Hr) as (_ & _ & Hf).
  destruct (Hf Unset (Positive 0) DeltaHistory_new eq_refl) as (Hok & _ & _);
    [intros v; discriminate|].
  exact (Hok 40 eq_refl eq_refl).
Defined.

Lemma try_add_try_sub_input_above_max_witness :
  let a := fresh_aggregator (V1 "k"%string) 10 in
  max_value a < 11 /\
  try_add empty_resolver 11 a = (Ok false, a, []) /\
  try_sub empty_resolver 11 a = (Ok false, a, []).
Proof.
  intros a. assert (H : max_value a < 11) by (cbn; lia).
  split; [exact H|]. exact (try_add_try_sub_input_above_max empty_resolver a 11 H).
Defined.

Lemma read_last_committed_aggregator_value_spec_witness :
  let a := fresh_aggregator (V1 "300"%string) 700 in
  state a = Delta Unset (Positive 0) DeltaHistory_new /\
  resolver_read empty_resolver (id a) LastCommitted = Ok None /\
  read_last_committed_aggregator_value empty_resolver a =
    (Err ExtensionError, a, [(V1 "300"%string, LastCommitted)]).
Proof.
  intros a. split; [reflexivity|]. split; [reflexivity|].
  destruct (read_last_committed_aggregator_value_spec empty_resolver a) as (_ & _ & Hu).
  destruct (Hu eq_refl) as (_ & Hnone & _).
  exact (Hnone eq_refl).
Defined.

Lemma snapshot_spec_witness :
  let i := AggregatorID_new 1 in
  let d := create_new_aggregator (AggregatorData_new 5) (V2 i) 100 in
  id_counter d < U64_MAX /\
  exists d', snapshot d i = Some (Ok (AggregatorID_new 6), d') /\
    aggregator_snapshots d' =
      <[AggregatorID_new 6 := mk_AggregatorSnapshot (AggregatorID_new 6)
                                (SnapshotData (Integer 0))]> (aggregator_snapshots d).
Proof.
  intros i d. assert (Hc : id_counter d < U64_MAX) by (cbn; unfold U64_MAX; lia).
  split; [exact Hc|].
  destruct (snapshot_spec d i Hc) as (Hdata & _ & _).
  destruct (Hdata (mk_Aggregator (V2 i) 100 (Data 0)) 0 eq_refl eq_refl)
    as (d' & Hs & Hsn & _).
  exists d'. split; [exact Hs | exact Hsn].
Defined.

Lemma remove_aggregator_v1_spec_witness :
  let d := create_new_aggregator (AggregatorData_new 0) (V1 "k"%string) 10 in
  V1 "k"%string ∈ new_aggregators d /\
  exists d', remove_aggregator_v1 d (V1 "k"%string) = Some d' /\
    aggregators d' = ∅ /\ new_aggregators d' = ∅ /\ destroyed_aggregators d' = ∅.
Proof.
  intros d. assert (Hin : V1 "k"%string ∈ new_aggregators d) by (cbn; set_solver).
  split; [exact Hin|].
  destruct (remove_aggregator_v1_spec d "k"%string (AggregatorID_new 1)) as (Hnew & _ & _).
  destruct (Hnew Hin) as (d' & Hr & Ha & Hn & Hd).
  exists d'. split; [exact Hr|]. rewrite Ha, Hn, Hd. cbn.
  split_and!; [by rewrite delete_insert_eq | set_solver | reflexivity].
Defined.

Lemma generate_id_increments_witness :
  id_counter (AggregatorData_new 5) < U64_MAX /\
  exists d', generate_ids 3 (AggregatorData_new 5) =
    Some ([AggregatorID_new 6; AggregatorID_new 7; AggregatorID_new 8], d') /\
    id_counter d' = 8.
Proof.
  assert (Hc : id_counter (AggregatorData_new 5) < U64_MAX) by (cbn; unfold U64_MAX; lia).
  split; [exact Hc|].
  destruct (generate_id_increments (AggregatorData_new 5) 3) as (_ & Hn).
  destruct Hn as (d' & Hg & Hc' & _); [cbn; unfold U64_MAX; lia|].
  exists d'. split; [exact Hg | cbn in Hc'; lia].
Defined.

Lemma get_aggregator_existing_witness :
  let d := create_new_aggregator (AggregatorData_new 0) (V1 "k"%string) 10 in
  aggregators d !! V1 "k"%string = Some (mk_Aggregator (V1 "k"%string) 10 (Data 0)) /\
  get_aggregator d (V1 "k"%string) 999 = (Ok (mk_Aggregator (V1 "k"%string) 10 (Data 0)), d).
Proof.
  intros d. assert (H : aggregators d !! V1 "k"%string =
                        Some (mk_Aggregator (V1 "k"%string) 10 (Data 0))) by reflexivity.
  split; [exact H|]. exact (get_aggregator_existing d _ 999 _ H).
Defined.

Lemma snapshot_error_consumes_id_witness :
  let d := AggregatorData_new 5 in
  let i := AggregatorID_new 1 in
  snapshot d i = Some (Err CodeInvariantError, AggregatorData_new 6) /\
  id_counter (AggregatorData_new 6) = id_counter d + 1.
Proof.
  intros d i. assert (H : snapshot d i = Some (Err CodeInvariantError, AggregatorData_new 6))
    by reflexivity.
  split; [exact H|].
  exact (proj2 (proj2 (proj2 (proj2
          (snapshot_error_consumes_id d i CodeInvariantError (AggregatorData_new 6) H))))).
Defined.

(** ** Further properties of the code *)

Lemma data_mode_ops_eq (r : AggregatorResolver) (a : Aggregator) (v input : Z) :
  state a = Data v -> input <= max_value a ->
  try_add r input a =
    (if v + input <=? max_value a then (Ok true, set_state a (Data (v + input)), [])
     else (Ok false, a, [])) /\
  try_sub r input a =
    (if input <=? v then (Ok true, set_state a (Data (v - input)), [])
     else (Ok false, a, [])).
Proof.
  destruct a as [vid m st]; cbn [state max_value]. intros -> Hin.
  split; run_delta_op; zcases; done.
Qed.

(** In [Data] mode, with an input within [max_value], [try_add] adds the
    input when the sum stays within [max_value] and returns [Ok(true)], and
    otherwise returns [Ok(false)] and keeps the value; [try_sub] subtracts
    when the value is at least the input and otherwise returns [Ok(false)].
    Neither consults the resolver. *)
Theorem data_mode_try_add_try_sub (r : AggregatorResolver) (a : Aggregator) (v input : Z) :
  state a = Data v -> input <= max_value a ->
  try_add r input a =
    (if v + input <=? max_value a then (Ok true, set_state a (Data (v + input)), [])
     else (Ok false, a, [])) /\
  try_sub r input a =
    (if input <=? v then (Ok true, set_state a (Data (v - input)), [])
     else (Ok false, a, [])).
Proof. apply data_mode_ops_eq. Qed.

(** When [read_last_committed_aggregator_value] succeeds on a [Delta]
    aggregator, its start value is set afterwards ([get_any_value]
    succeeds), and its delta and history are those it had. *)
Theorem read_last_committed_sets_start (r : AggregatorResolver) (a a1 : Aggregator)
    (l : list ResolverQuery) (s : SpeculativeStartValue) (d : SignedU128) (h : DeltaHistory) :
  read_last_committed_aggregator_value r a = (Ok tt, a1, l) ->
  state a = Delta s d h ->
  exists s' v, state a1 = Delta s' d h /\ get_any_value s' = Ok v.
Proof.
  intros Hr Hs. destruct s as [|b|b].
  - destruct (decide (d = Positive 0 /\ h = DeltaHistory_new)) as [[-> ->]|Hbad].
    + rewrite (rlc_fetch r a Hs) in Hr.
      destruct (value_or_extension_error _) as [b|]; [|done].
      injection Hr as <- _. by exists (LastCommittedValue b), b.
    + rewrite (rlc_invariant_error r a d h Hs) in Hr; [done|].
      destruct (decide (d = Positive 0)); [right|left]; naive_solver.
  - rewrite rlc_noop in Hr; [|right; by do 3 eexists]. injection Hr as <- _.
    by exists (LastCommittedValue b), b.
  - rewrite rlc_noop in Hr; [|right; by do 3 eexists]. injection Hr as <- _.
    by exists (AggregatedValue b), b.
Qed.

(** When [read_most_recent_aggregator_value] returns [Ok(x)] on a [Delta]
    aggregator, its start value is afterwards an aggregated value [v]
    (both [get_value_for_read] and [get_any_value] return [v]), delta and
    history are unchanged, and [x = v + delta]. *)
Theorem read_most_recent_sets_aggregated (r : AggregatorResolver) (a a1 : Aggregator)
    (l : list ResolverQuery) (x : Z) (s : SpeculativeStartValue) (d : SignedU128)
    (h : DeltaHistory) :
  read_most_recent_aggregator_value r a = (Ok x, a1, l) ->
  state a = Delta s d h ->
  exists s' v, state a1 = Delta s' d h /\
    get_value_for_read s' = Ok v /\ get_any_value s' = Ok v /\ x = v + signed_value d.
Proof.
  intros Hr Hs. destruct s as [|b|v]; cycle 2.
  { rewrite (rmr_aggregated r a v d h Hs) in Hr.
    destruct (unsigned_add_delta _ v d) eqn:E; cbn in Hr; [|done]. injection Hr as -> <- _.
    apply unsigned_add_delta_ok in E. exists (AggregatedValue v), v. split_and!; try done; lia. }
  all: rewrite (rmr_fetch r a _ d h Hs) in Hr by done.
  all: destruct (value_or_extension_error _) as [v|]; [|done].
  all: destruct (validate_against_base_value h v (max_value a)); [|done].
  all: destruct (unsigned_add_delta _ v d) eqn:E; [|done].
  all: injection Hr as -> <- _; apply unsigned_add_delta_ok in E.
  all: exists (AggregatedValue v), v; split_and!; try done; lia.
Qed.

(** After a successful [read_most_recent_aggregator_value], a second call,
    with any resolver, returns the same value, leaves the aggregator as it
    is and does not consult the resolver. *)
Theorem read_most_recent_cached (r r' : AggregatorResolver) (a a1 : Aggregator)
    (l : list ResolverQuery) (x : Z) :
  read_most_recent_aggregator_value r a = (Ok x, a1, l) ->
  read_most_recent_aggregator_value r' a1 = (Ok x, a1, []).
Proof.
  intros Hr. destruct (state a) as [v|s d h] eqn:Hs.
  - rewrite (proj2 (proj2 (proj2 (data_mode_stays r 0 a v Hs)))) in Hr.
    injection Hr as <- <- _. apply (data_mode_stays r' 0 a v Hs).
  - destruct s as [|b|v]; cycle 2.
    { rewrite (rmr_aggregated r a v d h Hs) in Hr.
      destruct (unsigned_add_delta _ v d) eqn:E; cbn in Hr; [|done]. injection Hr as -> <- _.
      by rewrite (rmr_aggregated r' a v d h Hs), E. }
    all: rewrite (rmr_fetch r a _ d h Hs) in Hr by done.
    all: destruct (value_or_extension_error _) as [v|]; [|done].
    all: destruct (validate_against_base_value h v (max_value a)); [|done].
    all: destruct (unsigned_add_delta _ v d) eqn:E; [|done].
    all: injection Hr as -> <- _.
    all: rewrite (rmr_aggregated r' _ v d h) by done.
    all: by rewrite max_value_set_state, E.
Qed.

Lemma try_ops_log_after_noop_read r x a :
  read_last_committed_aggregator_value r a = (Ok tt, a, []) ->
  (exists res a', try_add r x a = (res, a', [])) /\
  (exists res a', try_sub r x a = (res, a', [])).
Proof.
  intros Hr. unfold try_add, try_sub. cbv [bind get].
  destruct (max_value a <? x); [split; cbv [ret]; eauto|].
  rewrite Hr. cbv [put ret throw lift]. cbn.
  split; repeat (case_match; simplify_eq/=); eauto.
Qed.

(** Once the start value is known (or in [Data] mode), [try_add],
    [try_sub] and [read_last_committed_aggregator_value] never consult the
    resolver, and the last-committed read is a no-op;
    [read_most_recent_aggregator_value] does not consult it either in [Data]
    mode or once the start is an aggregated value, and then leaves the
    aggregator unchanged. *)
Theorem no_resolver_reads_once_start_known (r : AggregatorResolver) (x : Z) (a : Aggregator) :
  (exists v, state a = Data v) \/ (exists s d h, state a = Delta s d h /\ s <> Unset) ->
  (exists res a', try_add r x a = (res, a', [])) /\
  (exists res a', try_sub r x a = (res, a', [])) /\
  read_last_committed_aggregator_value r a = (Ok tt, a, []) /\
  ((exists v, state a = Data v) \/ (exists v d h, state a = Delta (AggregatedValue v) d h) ->
     exists res, read_most_recent_aggregator_value r a = (res, a, [])).
Proof.
  intros Hk. pose proof (rlc_noop r a Hk) as Hr.
  destruct (try_ops_log_after_noop_read r x a Hr) as [Ha Hs].
  split_and!; try done.
  intros [[v Hv] | (v & d & h & Hv)].
  - exists (Ok v). apply (data_mode_stays r 0 a v Hv).
  - eexists. apply (rmr_aggregated r a v d h Hv).
Qed.

Ltac brute_op :=
  unfold after, try_add, try_sub, read_last_committed_aggregator_value,
    read_most_recent_aggregator_value, read_from_storage;
  cbv [bind get put ret throw lift]; cbn;
  repeat (case_match; simplify_eq/=);
  cbn; unfold same_mode, fetched_last_committed, fetched_aggregated; eauto 10.

Lemma ops_keep_mode (r : AggregatorResolver) (x : Z) (a : Aggregator) :
  (id (after (try_add r x) a) = id a /\
   max_value (after (try_add r x) a) = max_value a /\
   same_mode fetched_last_committed (state a) (state (after (try_add r x) a))) /\
  (id (after (try_sub r x) a) = id a /\
   max_value (after (try_sub r x) a) = max_value a /\
   same_mode fetched_last_committed (state a) (state (after (try_sub r x) a))) /\
  (id (after (read_last_committed_aggregator_value r) a) = id a /\
   max_value (after (read_last_committed_aggregator_value r) a) = max_value a /\
   same_mode fetched_last_committed (state a)
     (state (after (read_last_committed_aggregator_value r) a))) /\
  (id (after (read_most_recent_aggregator_value r) a) = id a /\
   max_value (after (read_most_recent_aggregator_value r) a) = max_value a /\
   same_mode fetched_aggregated (state a)
     (state (after (read_most_recent_aggregator_value r) a))).
Proof.
  destruct a as [vid m st].
  split_and!; brute_op.
  all: destruct st; eauto.
Qed.

(** None of the four operations changes the aggregator's id or [max_value]
    or switches between [Data] and [Delta] mode.  [try_add], [try_sub] and
    [read_last_committed_aggregator_value] keep the start value, except that
    an [Unset] start may become a last-committed value;
    [read_most_recent_aggregator_value] keeps it, except that a start that is
    not yet aggregated may become an aggregated value.  In particular a
    known start value never becomes [Unset] again. *)
Theorem operations_keep_mode (r : AggregatorResolver) (x : Z) (a : Aggregator) :
  (id (after (try_add r x) a) = id a /\
   max_value (after (try_add r x) a) = max_value a /\
   same_mode fetched_last_committed (state a) (state (after (try_add r x) a))) /\
  (id (after (try_sub r x) a) = id a /\
   max_value (after (try_sub r x) a) = max_value a /\
   same_mode fetched_last_committed (state a) (state (after (try_sub r x) a))) /\
  (id (after (read_last_committed_aggregator_value r) a) = id a /\
   max_value (after (read_last_committed_aggregator_value r) a) = max_value a /\
   same_mode fetched_last_committed (state a)
     (state (after (read_last_committed_aggregator_value r) a))) /\
  (id (after (read_most_recent_aggregator_value r) a) = id a /\
   max_value (after (read_most_recent_aggregator_value r) a) = max_value a /\
   same_mode fetched_aggregated (state a)
     (state (after (read_most_recent_aggregator_value r) a))).
Proof. apply ops_keep_mode. Qed.

Ltac brute_fail :=
  unfold after, try_add, try_sub, read_last_committed_aggregator_value,
    read_most_recent_aggregator_value, read_from_storage;
  cbv [bind get put ret throw lift]; cbn;
  repeat (first [progress simplify_eq/= | case_match | intro
                | match goal with |- _ /\ _ => split end]);
  cbn in *; eauto 10.

(** [try_add] and [try_sub] change the delta only when they return
    [Ok(true)]: otherwise a [Data] aggregator is left as it was, and a
    [Delta] aggregator keeps its id, [max_value] and delta; its start is
    either kept or, if it was [Unset], fetched as a last-committed value,
    and its history is either kept or extended by one [record_overflow]
    ([try_add]) or [record_underflow] ([try_sub]); when they fail with an
    error the history is kept as well.  A failed
    [read_last_committed_aggregator_value] or
    [read_most_recent_aggregator_value] leaves the aggregator unchanged. *)
Theorem failed_operations_keep_delta (r : AggregatorResolver) (x : Z) (a : Aggregator) :
  (forall res a1 l, try_add r x a = (res, a1, l) -> res <> Ok true ->
     (forall v, state a = Data v -> a1 = a) /\
     (forall s d h, state a = Delta s d h ->
        exists s' h', a1 = set_state a (Delta s' d h') /\
          (s' = s \/ fetched_last_committed s s') /\
          (h' = h \/ exists o, h' = record_overflow h o) /\
          (is_err res = true -> h' = h))) /\
  (forall res a1 l, try_sub r x a = (res, a1, l) -> res <> Ok true ->
     (forall v, state a = Data v -> a1 = a) /\
     (forall s d h, state a = Delta s d h ->
        exists s' h', a1 = set_state a (Delta s' d h') /\
          (s' = s \/ fetched_last_committed s s') /\
          (h' = h \/ exists u, h' = record_underflow h u) /\
          (is_err res = true -> h' = h))) /\
  (forall e a1 l, read_last_committed_aggregator_value r a = (Err e, a1, l) -> a1 = a) /\
  (forall e a1 l, read_most_recent_aggregator_value r a = (Err e, a1, l) -> a1 = a).
Proof.
  destruct a as [vid m st]. unfold fetched_last_committed, set_state.
  split_and!; brute_fail.
  all: do 2 eexists; split; [reflexivity|]; split_and!; [naive_solver..|discriminate].
Qed.


(** [get_aggregator] on an id not yet in the registry stores a fresh
    aggregator [Delta{Unset, 0, empty}] with the given [max_value] under that
    id and returns it, so [num_aggregators] grows by one; a later
    [get_aggregator] of the same id, whatever [max_value] it passes, returns
    that stored aggregator. *)
Theorem get_aggregator_inserts_fresh (d : AggregatorData) (vid : AggregatorVersionedID)
    (m m' : Z) :
  aggregators d !! vid = None ->
  let d' := set_aggregators d (<[vid := fresh_aggregator vid m]> (aggregators d)) in
  get_aggregator d vid m = (Ok (fresh_aggregator vid m), d') /\
  num_aggregators d' = num_aggregators d + 1 /\
  get_aggregator d' vid m' = (Ok (fresh_aggregator vid m), d').
Proof.
  intros Hn d'. unfold get_aggregator. rewrite Hn. split; [done|]. split.
  - unfold num_aggregators, d'. cbn. rewrite map_size_insert_None by done. lia.
  - unfold d'. cbn. by rewrite lookup_insert_eq.
Qed.

(** [create_new_aggregator] stores [Data{0}] with the given [max_value]
    under the id, replacing any aggregator stored there, marks the id as
    new and leaves every other entry alone; [num_aggregators] grows by one
    exactly when the id was absent; a later [get_aggregator] of the id
    returns the stored [Data{0}] aggregator whatever [max_value] it
    passes. *)
Theorem create_new_aggregator_spec (d : AggregatorData) (vid : AggregatorVersionedID)
    (m m' : Z) :
  let d' := create_new_aggregator d vid m in
  aggregators d' !! vid = Some (mk_Aggregator vid m (Data 0)) /\
  vid ∈ new_aggregators d' /\
  (forall vid2, vid2 <> vid -> aggregators d' !! vid2 = aggregators d !! vid2) /\
  num_aggregators d' =
    num_aggregators d + (match aggregators d !! vid with Some _ => 0 | None => 1 end) /\
  get_aggregator d' vid m' = (Ok (mk_Aggregator vid m (Data 0)), d').
Proof.
  intros d'. unfold d', create_new_aggregator, get_aggregator, num_aggregators. cbn.
  split_and!.
  - by rewrite lookup_insert_eq.
  - set_solver.
  - intros vid2 Hne. by rewrite lookup_insert_ne.
  - destruct (aggregators d !! vid) eqn:E.
    + rewrite map_size_insert_Some by eauto. lia.
    + rewrite map_size_insert_None by done. lia.
  - by rewrite lookup_insert_eq.
Qed.

(** Removing a V1 aggregator created in the same transaction undoes its
    creation: if the id was neither stored nor marked new before, creating
    and then removing it gives back the registry it started from (in
    particular nothing is recorded as destroyed). *)
Theorem create_then_remove_v1 (d : AggregatorData) (k : StateKey) (m : Z) :
  aggregators d !! V1 k = None -> V1 k ∉ new_aggregators d ->
  remove_aggregator_v1 (create_new_aggregator d (V1 k) m) (V1 k) = Some d.
Proof.
  intros Ha Hn. unfold remove_aggregator_v1, create_new_aggregator. cbn.
  rewrite bool_decide_eq_true_2 by set_solver.
  destruct d as [na da ag sn c]; cbn in *. do 2 f_equal.
  - apply set_eq. set_solver.
  - by rewrite delete_insert_eq, delete_id.
Qed.

(** Every registry operation keeps all stored snapshot ids at or below
    [id_counter]: it holds for [AggregatorData::new(c)], and
    [get_aggregator], [create_new_aggregator], [remove_aggregator_v1],
    [generate_id] and [snapshot] (whether it succeeds or fails) preserve
    it. *)
Theorem snapshot_ids_issued_preserved (c : Z) :
  snapshot_ids_issued (AggregatorData_new c) /\
  forall d, snapshot_ids_issued d ->
    (forall vid m, snapshot_ids_issued (snd (get_aggregator d vid m))) /\
    (forall vid m, snapshot_ids_issued (create_new_aggregator d vid m)) /\
    (forall vid d', remove_aggregator_v1 d vid = Some d' -> snapshot_ids_issued d') /\
    (forall i d', generate_id d = Some (i, d') -> snapshot_ids_issued d') /\
    (forall i res d', snapshot d i = Some (res, d') -> snapshot_ids_issued d').
Proof.
  split; [intros k sn; cbn; by rewrite lookup_empty|].
  intros d Hd. split_and!.
  - intros vid m. unfold get_aggregator. by destruct (aggregators d !! vid).
  - intros vid m. exact Hd.
  - intros [k|i] d'; cbn; [|done].
    case_match; intros [= <-]; exact Hd.
  - intros i d'. unfold generate_id. case_match; [done|].
    intros [= _ <-] k sn Hk. cbn in *. specialize (Hd k sn Hk). lia.
  - intros i res d'. unfold snapshot, generate_id.
    destruct (U64_MAX <? id_counter d + 1); [done|]. cbn.
    destruct (aggregators d !! V2 i); intros [= _ <-] k sn Hk; cbn in *.
    + destruct (decide (k = AggregatorID_new (id_counter d + 1))) as [->|Hne]; [cbn; lia|].
      rewrite lookup_insert_ne in Hk by congruence.
      specialize (Hd k sn Hk). lia.
    + specialize (Hd k sn Hk). lia.
Qed.

(** Under that invariant [snapshot] never overwrites a stored snapshot: the
    id it returns is [id_counter + 1], no snapshot was stored under it, and
    every snapshot stored before is still stored afterwards. *)
Theorem snapshot_never_overwrites (d d' : AggregatorData) (i sid : AggregatorID) :
  snapshot_ids_issued d ->
  snapshot d i = Some (Ok sid, d') ->
  aggregator_id_value sid = id_counter d + 1 /\
  aggregator_snapshots d !! sid = None /\
  (forall k sn, aggregator_snapshots d !! k = Some sn ->
     aggregator_snapshots d' !! k = Some sn).
Proof.
  intros Hd. unfold snapshot, generate_id.
  destruct (U64_MAX <? id_counter d + 1); [done|]. cbn.
  destruct (aggregators d !! V2 i); [|done]. intros [= <- <-]. cbn.
  split_and!; [done| |].
  - destruct (aggregator_snapshots d !! _) as [sn|] eqn:E; [|done].
    specialize (Hd _ sn E). cbn in Hd. lia.
  - intros k sn Hk. rewrite lookup_insert_ne; [done|].
    intros Heq. subst k. specialize (Hd _ sn Hk). cbn in Hd. lia.
Qed.

Lemma delta_stays_delta r x a s d h :
  state a = Delta s d h ->
  (forall v, state (after (try_add r x) a) <> Data v) /\
  (forall v, state (after (try_sub r x) a) <> Data v) /\
  (forall v, state (after (read_last_committed_aggregator_value r) a) <> Data v) /\
  (forall v, state (after (read_most_recent_aggregator_value r) a) <> Data v).
Proof.
  intros Hs. destruct (ops_keep_mode r x a) as ((_ & _ & H1) & (_ & _ & H2) & (_ & _ & H3)
                                              & (_ & _ & H4)).
  rewrite Hs in H1, H2, H3, H4.
  split_and!; intros v Hv; [rewrite Hv in H1|rewrite Hv in H2|rewrite Hv in H3|rewrite Hv in H4];
    done.
Qed.

(** A [Data] value of a reachable aggregator lies in [[0, max_value]]. *)
Lemma reachable_data_in_range admissible a :
  reachable admissible a -> forall v, state a = Data v -> 0 <= v <= max_value a.
Proof.
  induction 1 as [vid m Hm|vid m Hm|a r input _ IH Hadm Hin|a r input _ IH Hadm Hin
                 |a r _ IH Hadm|a r _ IH Hadm]; intros w Hw; unfold is_u128 in *.
  - cbn in Hw |- *. injection Hw as <-. lia.
  - discriminate Hw.
  - rewrite (proj1 (ops_keep_max_value r input a)).
    destruct (state a) as [v|s d h] eqn:Es;
      [|by destruct (proj1 (delta_stays_delta r input a s d h Es) w)].
    specialize (IH v eq_refl).
    destruct (Z.ltb_spec (max_value a) input) as [Hbig|Hle].
    { unfold after in Hw. rewrite (proj1 (input_above_max_noop r a input Hbig)) in Hw.
      rewrite Es in Hw. injection Hw as <-. exact IH. }
    unfold after in Hw. rewrite (proj1 (data_mode_ops_eq r a v input Es Hle)) in Hw.
    destruct (Z.leb_spec (v + input) (max_value a)); cbn in Hw;
      [injection Hw as <-; lia | congruence].
  - rewrite (proj1 (proj2 (ops_keep_max_value r input a))).
    destruct (state a) as [v|s d h] eqn:Es;
      [|by destruct (proj1 (proj2 (delta_stays_delta r input a s d h Es)) w)].
    specialize (IH v eq_refl).
    destruct (Z.ltb_spec (max_value a) input) as [Hbig|Hle].
    { unfold after in Hw. rewrite (proj2 (input_above_max_noop r a input Hbig)) in Hw.
      rewrite Es in Hw. injection Hw as <-. exact IH. }
    unfold after in Hw. rewrite (proj2 (data_mode_ops_eq r a v input Es Hle)) in Hw.
    destruct (Z.leb_spec input v); cbn in Hw; [injection Hw as <-; lia | congruence].
  - rewrite (proj1 (proj2 (proj2 (ops_keep_max_value r 0 a)))).
    destruct (state a) as [v|s d h] eqn:Es;
      [|by destruct (proj1 (proj2 (proj2 (delta_stays_delta r 0 a s d h Es))) w)].
    rewrite (proj1 (proj2 (proj2 (data_mode_stays r 0 a v Es)))) in Hw.
    rewrite Es in Hw. injection Hw as <-. exact (IH v eq_refl).
  - rewrite (proj2 (proj2 (proj2 (ops_keep_max_value r 0 a)))).
    destruct (state a) as [v|s d h] eqn:Es;
      [|by destruct (proj2 (proj2 (proj2 (delta_stays_delta r 0 a s d h Es))) w)].
    unfold after in Hw. rewrite (proj2 (proj2 (proj2 (data_mode_stays r 0 a v Es)))) in Hw.
    rewrite Es in Hw. injection Hw as <-. exact (IH v eq_refl).
Qed.

Lemma try_add_after_failed_read r x a a1 e l :
  x <= max_value a ->
  read_last_committed_aggregator_value r a = (Err e, a1, l) ->
  try_add r x a = (Err e, a1, l).
Proof.
  intros Hle Hr. unfold try_add. cbv [bind get].
  by rewrite (proj2 (Z.ltb_ge _ _) Hle), Hr.
Qed.

Lemma try_add_after_read r x a a1 l res a2 l2 :
  x <= max_value a ->
  read_last_committed_aggregator_value r a = (Ok tt, a1, l) ->
  read_last_committed_aggregator_value r a1 = (Ok tt, a1, []) ->
  max_value a1 = max_value a ->
  try_add r x a1 = (res, a2, l2) ->
  try_add r x a = (res, a2, l ++ l2).
Proof.
  intros Hle Hr Hr1 Hm. unfold try_add. cbv [bind get].
  rewrite Hm, (proj2 (Z.ltb_ge _ _) Hle), Hr, Hr1. cbn.
  repeat (case_match; simplify_eq/=); intros Heq; simplify_eq/=; by rewrite ?app_nil_r.
Qed.

Lemma add_sub_consistent r r' x a s start d h a1 l :
  state a = Delta s d h -> get_any_value s = Ok start ->
  0 <= start <= max_value a -> 0 <= start + signed_value d <= max_value a -> 0 <= x ->
  try_add r x a = (Ok true, a1, l) ->
  exists a2, try_sub r' x a1 = (Ok true, a2, []) /\
    current_value a1 = Some (start + signed_value d + x) /\
    current_value a2 = Some (start + signed_value d).
Proof.
  intros Hs Hany Hst Hcur Hx Hadd.
  destruct (Z.ltb_spec (max_value a) x) as [Hbig|Hle].
  { by rewrite (proj1 (input_above_max_noop r a x Hbig)) in Hadd. }
  destruct (delta_mode_ops r a s start d h x Hs Hany Hst Hcur ltac:(lia))
    as (Hok & Hovf & _ & _).
  destruct (Z.le_gt_cases (start + signed_value d + x) (max_value a)) as [Hfit|Hover];
    [|by rewrite (Hovf Hover) in Hadd].
  destruct (Hok Hfit) as (nd & Hnd & _ & Hr). rewrite Hr in Hadd.
  injection Hadd as <- _.
  set (a1 := set_state a (Delta s nd (record_success h nd))).
  assert (Hm1 : max_value a1 = max_value a) by apply max_value_set_state.
  destruct (delta_mode_ops r' a1 s start nd (record_success h nd) x eq_refl Hany
              ltac:(lia) ltac:(lia) ltac:(lia))
    as (_ & _ & _ & Hsub).
  destruct Hsub as (nd2 & Hnd2 & _ & Hr2); [lia|].
  exists (set_state a1 (Delta s nd2 (record_success (record_success h nd) nd2))).
  split; [exact Hr2|]. unfold current_value. cbn. rewrite Hany.
  split; f_equal; lia.
Qed.

(** On an aggregator reachable with resolvers reporting [u128] values, a
    [try_add(x)] (with a [u128] input and such a resolver) that returns
    [Ok(true)] can be undone: a following [try_sub(x)], with any resolver,
    returns [Ok(true)] without consulting it, and the aggregator's current
    value goes from [c + x] back to [c], where [c] is the value it had
    before the addition (once its start was known). *)
Theorem try_add_then_try_sub (r r' : AggregatorResolver) (x : Z) (a a1 : Aggregator)
    (l : list ResolverQuery) :
  reachable u128_resolver a -> u128_resolver (max_value a) r -> is_u128 x ->
  try_add r x a = (Ok true, a1, l) ->
  exists c a2,
    current_value a1 = Some (c + x) /\
    try_sub r' x a1 = (Ok true, a2, []) /\
    current_value a2 = Some c /\
    (forall c0, current_value a = Some c0 -> c0 = c).
Proof.
  intros Hreach Hadm Hx Hadd. unfold is_u128 in Hx.
  pose proof (reachable_inv u128_resolver True u128_resolver_values a Hreach) as Hinv.
  pose proof Hinv as [Hm Hst].
  destruct (Z.ltb_spec (max_value a) x) as [Hbig|Hle].
  { by rewrite (proj1 (input_above_max_noop r a x Hbig)) in Hadd. }
  unfold current_value.
  destruct (state a) as [v|s d h] eqn:Es.
  - (* Data mode *)
    rewrite (proj1 (data_mode_ops_eq r a v x Es Hle)) in Hadd.
    destruct (Z.leb_spec (v + x) (max_value a)); [|done]. injection Hadd as <- _.
    set (a1 := set_state a (Data (v + x))).
    assert (Hm1 : x <= max_value a1) by (unfold a1; rewrite max_value_set_state; lia).
    rewrite (proj2 (data_mode_ops_eq r' a1 (v + x) x eq_refl Hm1)).
    pose proof (reachable_data_in_range _ a Hreach v Es).
    destruct (Z.leb_spec x (v + x)); [|lia].
    exists v. eexists. split_and!; [reflexivity|reflexivity| |].
    + cbn. f_equal. lia.
    + by intros c0 [= <-].
  - destruct s as [|b|v].
    + (* the start is fetched first *)
      destruct Hst as [-> ->].
      pose proof (rlc_fetch r a Es) as Hr.
      destruct (value_or_extension_error (resolver_read r (id a) LastCommitted))
        as [b|e] eqn:E; [|by rewrite (try_add_after_failed_read r x a a e _ Hle Hr) in Hadd].
      apply value_or_extension_error_ok in E.
      set (a' := set_state a (Delta (LastCommittedValue b) (Positive 0) DeltaHistory_new)).
      assert (Hr' : read_last_committed_aggregator_value r a' = (Ok tt, a', [])).
      { apply rlc_noop. right. by do 3 eexists. }
      destruct (try_add r x a') as [[res a2] l2] eqn:Ea'.
      rewrite (try_add_after_read r x a a' _ res a2 l2 Hle Hr Hr' eq_refl Ea') in Hadd.
      injection Hadd as -> -> _.
      destruct (Hadm _ _ _ E) as [Hb0 _].
      destruct (Z.ltb_spec (max_value a) b) as [Hb|Hb].
      { by rewrite (proj1 (oversized_start_stuck r x a' b eq_refl Hb Hle)) in Ea'. }
      destruct (add_sub_consistent r r' x a' (LastCommittedValue b) b (Positive 0)
                  DeltaHistory_new a1 l2 eq_refl eq_refl) as (a3 & H3 & Hc1 & Hc3);
        cbn; try lia; [done|].
      exists (b + 0), a3. split_and!; [done..|]. intros c0 [=].
    + destruct Hst as [(_ & Hb & -> & ->) | Hc].
      { by rewrite (proj1 (oversized_start_stuck r x a b Es Hb Hle)) in Hadd. }
      destruct Hc as (Hb & Hcur & _).
      destruct (add_sub_consistent r r' x a (LastCommittedValue b) b d h a1 l Es eq_refl)
        as (a3 & H3 & Hc1 & Hc3); try lia; [done|].
      exists (b + signed_value d), a3. split_and!; [done..|]. cbn. congruence.
    + destruct Hst as (Hb & Hcur & _).
      destruct (add_sub_consistent r r' x a (AggregatedValue v) v d h a1 l Es eq_refl)
        as (a3 & H3 & Hc1 & Hc3); try lia; [done|].
      exists (v + signed_value d), a3. split_and!; [done..|]. cbn. congruence.
Qed.


(** A reachable aggregator in [Data] mode (created by
    [create_new_aggregator] and driven by the four operations with any
    resolvers) always holds a value in [[0, max_value]]. *)
Theorem data_value_in_range (admissible : Z -> AggregatorResolver -> Prop) (a : Aggregator)
    (v : Z) :
  reachable admissible a -> state a = Data v -> 0 <= v <= max_value a.
Proof. intros Hr. by apply (reachable_data_in_range admissible). Qed.

(** ** Concrete instances of the further properties *)

Lemma data_mode_try_add_try_sub_witness :
  let a := mk_Aggregator (V1 "k"%string) 200 (Data 50) in
  state a = Data 50 /\ 100 <= max_value a /\
  try_add empty_resolver 100 a = (Ok true, set_state a (Data 150), []) /\
  try_sub empty_resolver 100 a = (Ok false, a, []).
Proof.
  intros a. assert (Hm : 100 <= max_value a) by (cbn; lia).
  destruct (data_mode_try_add_try_sub empty_resolver a 50 100 eq_refl Hm) as [Ha Hs].
  split_and!; [reflexivity | exact Hm | rewrite Ha; reflexivity | rewrite Hs; reflexivity].
Defined.

Lemma read_last_committed_sets_start_witness :
  let a := fresh_aggregator (V1 "k"%string) 100 in
  let a1 := set_state a (Delta (LastCommittedValue 40) (Positive 0) DeltaHistory_new) in
  read_last_committed_aggregator_value (const_resolver 40) a =
    (Ok tt, a1, [(V1 "k"%string, LastCommitted)]) /\
  exists s' v, state a1 = Delta s' (Positive 0) DeltaHistory_new /\ get_any_value s' = Ok v.
Proof.
  intros a a1.
  assert (H : read_last_committed_aggregator_value (const_resolver 40) a =
                (Ok tt, a1, [(V1 "k"%string, LastCommitted)])) by reflexivity.
  split; [exact H|].
  exact (read_last_committed_sets_start (const_resolver 40) a a1 _ Unset (Positive 0)
           DeltaHistory_new H eq_refl).
Defined.

Lemma read_most_recent_sets_aggregated_witness :
  let a := fresh_aggregator (V1 "k"%string) 100 in
  let a1 := set_state a (Delta (AggregatedValue 40) (Positive 0) DeltaHistory_new) in
  read_most_recent_aggregator_value (const_resolver 40) a =
    (Ok 40, a1, [(V1 "k"%string, Aggregated)]) /\
  exists s' v, state a1 = Delta s' (Positive 0) DeltaHistory_new /\
    get_value_for_read s' = Ok v /\ get_any_value s' = Ok v /\ 40 = v + signed_value (Positive 0).
Proof.
  intros a a1.
  assert (H : read_most_recent_aggregator_value (const_resolver 40) a =
                (Ok 40, a1, [(V1 "k"%string, Aggregated)])) by reflexivity.
  split; [exact H|].
  exact (read_most_recent_sets_aggregated (const_resolver 40) a a1 _ 40 Unset (Positive 0)
           DeltaHistory_new H eq_refl).
Defined.

Lemma read_most_recent_cached_witness :
  let a := fresh_aggregator (V1 "k"%string) 100 in
  let a1 := set_state a (Delta (AggregatedValue 40) (Positive 0) DeltaHistory_new) in
  read_most_recent_aggregator_value (const_resolver 40) a =
    (Ok 40, a1, [(V1 "k"%string, Aggregated)]) /\
  read_most_recent_aggregator_value empty_resolver a1 = (Ok 40, a1, []).
Proof.
  intros a a1.
  assert (H : read_most_recent_aggregator_value (const_resolver 40) a =
                (Ok 40, a1, [(V1 "k"%string, Aggregated)])) by reflexivity.
  split; [exact H|].
  exact (read_most_recent_cached (const_resolver 40) empty_resolver a a1 _ 40 H).
Defined.

Lemma no_resolver_reads_once_start_known_witness :
  let a := mk_Aggregator (V1 "k"%string) 100
             (Delta (LastCommittedValue 40) (Positive 0) DeltaHistory_new) in
  (exists s d h, state a = Delta s d h /\ s <> Unset) /\
  (exists res a', try_add empty_resolver 5 a = (res, a', [])) /\
  read_last_committed_aggregator_value empty_resolver a = (Ok tt, a, []).
Proof.
  intros a.
  assert (Hk : exists s d h, state a = Delta s d h /\ s <> Unset)
    by (do 3 eexists; split; [reflexivity | discriminate]).
  destruct (no_resolver_reads_once_start_known empty_resolver 5 a (or_intror Hk))
    as (Hadd & _ & Hr & _).
  split_and!; [exact Hk | exact Hadd | exact Hr].
Defined.

Lemma failed_operations_keep_delta_witness :
  let a := fresh_aggregator (V1 "300"%string) 700 in
  try_add empty_resolver 100 a = (Err ExtensionError, a, [(V1 "300"%string, LastCommitted)]) /\
  exists s' h', a = set_state a (Delta s' (Positive 0) h') /\ h' = DeltaHistory_new.
Proof.
  intros a.
  assert (H : try_add empty_resolver 100 a =
                (Err ExtensionError, a, [(V1 "300"%string, LastCommitted)])) by reflexivity.
  split; [exact H|].
  destruct (failed_operations_keep_delta empty_resolver 100 a) as (Hadd & _).
  destruct (proj2 (Hadd _ _ _ H ltac:(discriminate)) Unset (Positive 0) DeltaHistory_new
              eq_refl) as (s' & h' & Hs & _ & _ & Hh).
  exists s', h'. split; [exact Hs | exact (Hh eq_refl)].
Defined.

Lemma get_aggregator_inserts_fresh_witness :
  let d := AggregatorData_new 0 in
  aggregators d !! V1 "k"%string = None /\
  num_aggregators
    (set_aggregators d (<[V1 "k"%string := fresh_aggregator (V1 "k"%string) 100]>
                          (aggregators d))) = 1.
Proof.
  intros d. assert (H : aggregators d !! V1 "k"%string = None) by reflexivity.
  split; [exact H|].
  destruct (get_aggregator_inserts_fresh d (V1 "k"%string) 100 5 H) as (_ & Hn & _).
  rewrite Hn. reflexivity.
Defined.

Lemma create_new_aggregator_spec_witness :
  let d := create_new_aggregator (AggregatorData_new 0) (V1 "k"%string) 10 in
  get_aggregator d (V1 "k"%string) 999 = (Ok (mk_Aggregator (V1 "k"%string) 10 (Data 0)), d) /\
  num_aggregators d = 1.
Proof.
  intros d.
  destruct (create_new_aggregator_spec (AggregatorData_new 0) (V1 "k"%string) 10 999)
    as (_ & _ & _ & Hn & Hg).
  split; [exact Hg | unfold d; rewrite Hn; reflexivity].
Defined.

Lemma create_then_remove_v1_witness :
  let d := AggregatorData_new 3 in
  aggregators d !! V1 "k"%string = None /\ (V1 "k"%string ∉ new_aggregators d) /\
  remove_aggregator_v1 (create_new_aggregator d (V1 "k"%string) 10) (V1 "k"%string) = Some d.
Proof.
  intros d. assert (Ha : aggregators d !! V1 "k"%string = None) by reflexivity.
  assert (Hn : V1 "k"%string ∉ new_aggregators d) by (cbn; set_solver).
  split_and!; [exact Ha | exact Hn | exact (create_then_remove_v1 d "k"%string 10 Ha Hn)].
Defined.

Lemma snapshot_ids_issued_preserved_witness :
  let i := AggregatorID_new 1 in
  let d := create_new_aggregator (AggregatorData_new 5) (V2 i) 100 in
  snapshot_ids_issued d /\
  match snapshot d i with
  | Some (_, d') => snapshot_ids_issued d'
  | None => False
  end.
Proof.
  intros i d.
  destruct (snapshot_ids_issued_preserved 5) as [H0 Hp].
  assert (Hd : snapshot_ids_issued d) by exact (proj1 (proj2 (Hp _ H0)) (V2 i) 100).
  split; [exact Hd|].
  destruct (snapshot d i) as [[res d']|] eqn:E; [|vm_compute in E; discriminate E].
  exact (proj2 (proj2 (proj2 (proj2 (Hp d Hd)))) i res d' E).
Defined.

Lemma snapshot_never_overwrites_witness :
  let i := AggregatorID_new 1 in
  let d := create_new_aggregator (AggregatorData_new 5) (V2 i) 100 in
  snapshot_ids_issued d /\
  match snapshot d i with
  | Some (Ok sid, _) => aggregator_id_value sid = 6 /\ aggregator_snapshots d !! sid = None
  | _ => False
  end.
Proof.
  intros i d.
  assert (Hd : snapshot_ids_issued d).
  { intros k sn Hk. cbn in Hk. rewrite lookup_empty in Hk. discriminate Hk. }
  split; [exact Hd|].
  destruct (snapshot d i) as [[[sid|e] d']|] eqn:E; [|vm_compute in E; discriminate E..].
  destruct (snapshot_never_overwrites d d' i sid Hd E) as (Hv & Hn & _).
  split; [rewrite Hv; reflexivity | exact Hn].
Defined.

Lemma try_add_then_try_sub_witness :
  let a := fresh_aggregator (V1 "k"%string) 100 in
  reachable u128_resolver a /\
  match try_add (const_resolver 40) 30 a with
  | (Ok true, a1, _) =>
      exists c a2, current_value a1 = Some (c + 30) /\
        try_sub empty_resolver 30 a1 = (Ok true, a2, []) /\ current_value a2 = Some c
  | _ => False
  end.
Proof.
  intros a.
  assert (Hr : reachable u128_resolver a)
    by (apply reach_fetched; unfold is_u128, U128_MAX; lia).
  assert (Hadm : u128_resolver (max_value a) (const_resolver 40))
    by (apply const_resolver_values; unfold U128_MAX; lia).
  assert (Hx : is_u128 30) by (unfold is_u128, U128_MAX; lia).
  split; [exact Hr|].
  destruct (try_add (const_resolver 40) 30 a) as [[res a1] l] eqn:E.
  destruct res as [[|]|e]; [|vm_compute in E; discriminate E..].
  destruct (try_add_then_try_sub (const_resolver 40) empty_resolver 30 a a1 l Hr Hadm Hx E)
    as (c & a2 & H1 & H2 & H3 & _).
  exists c, a2. split_and!; [exact H1 | exact H2 | exact H3].
Defined.

Lemma data_value_in_range_witness :
  let a := after (try_add empty_resolver 7) (mk_Aggregator (V1 "k"%string) 10 (Data 0)) in
  reachable (fun _ _ => True) a /\ state a = Data 7 /\ 0 <= 7 <= max_value a.
Proof.
  intros a.
  assert (Hr : reachable (fun _ _ => True) a).
  { apply reach_try_add; [apply reach_created; unfold is_u128, U128_MAX; lia | done |
                          unfold is_u128, U128_MAX; lia]. }
  assert (Hs : state a = Data 7) by reflexivity.
  exact (conj Hr (conj Hs (data_value_in_range _ a 7 Hr Hs))).
Defined.
